(** * Migration loader and recorder

    A shallow embedding of [django/db/migrations/loader.py] and
    [django/db/migrations/recorder.py].  Python objects with mutable
    attributes become records threaded through a state-and-exception monad;
    insertion-ordered dictionaries become association lists; Python sets
    become [gset]s. *)

From Stdlib Require Import ZArith Ascii.
From stdpp Require Import base option list strings gmap sets sorting relations.

#[local] Set Warnings "-clear-no-such-hyp".

(** ** Keys and migration units *)

(** A migration is identified by the pair [(app_label, name)]. *)
Definition key : Type := string * string.

(** What the loader reads of a [Migration] instance: its identity and the
    three class attributes [dependencies], [run_before] and [replaces]. *)
Record Migration := mkMigration {
  name : string;
  app_label : string;
  dependencies : list key;
  run_before : list key;
  replaces : list key
}.

#[global] Instance Migration_eq_dec : EqDecision Migration.
Proof. solve_decision. Defined.

(** ** Insertion-ordered dictionaries

    A Python [dict] keeps its keys in first-insertion order; assigning to a
    key that is present overwrites the value in place. *)
Module Dict.
Section dict.
Context {K V : Type} `{EqDecision K}.

Definition t := list (K * V).

Definition empty : t := [].

Fixpoint get (k : K) (d : t) : option V :=
  match d with
  | [] => None
  | (k', v) :: d' => if decide (k = k') then Some v else get k d'
  end.

Definition mem (k : K) (d : t) : bool := bool_decide (is_Some (get k d)).

(** [d[k] = v] *)
Fixpoint set (k : K) (v : V) (d : t) : t :=
  match d with
  | [] => [(k, v)]
  | (k', v') :: d' =>
      if decide (k = k') then (k, v) :: d' else (k', v') :: set k v d'
  end.

(** [d.pop(k, None)], keeping only the dictionary. *)
Fixpoint pop (k : K) (d : t) : t :=
  match d with
  | [] => []
  | (k', v') :: d' =>
      if decide (k = k') then d' else (k', v') :: pop k d'
  end.

Definition keys (d : t) : list K := d.*1.

(** [{k: v for (k, v) in l}] *)
Definition of_list (l : list (K * V)) : t :=
  fold_left (fun d kv => set kv.1 kv.2 d) l empty.
End dict.
#[global] Arguments t : clear implicits.
End Dict.

(** ** Exceptions *)

(** The text of a [NodeNotFoundError]: the graph's own message for a
    dangling edge, or the loader's richer message of [build_graph], which
    lists the squash migrations that were tried. *)
Inductive nnf_message :=
| MsgNonexistent (origin : Migration) (node : key)
| MsgTriedReplace (origin : option Migration) (node : key) (tries : list key).

Inductive exn :=
| AttributeError (attr : string)
| IndexError
| ImportError (stale_pyc : bool)
| ModuleNotFoundError
| BadMigrationError (migration_name app : string)
| DuplicateNodeError (k : key)
| ValueError (msg : string)
| NodeNotFoundError (message : nnf_message) (node : key)
                    (origin : option Migration)
| CircularDependencyError (cycle : list key)
| InconsistentMigrationHistory (msg : string)
| DatabaseError
| MigrationSchemaMissing.

Inductive result (A : Type) :=
| Ok (a : A)
| Raise (e : exn).
#[global] Arguments Ok {A} a.
#[global] Arguments Raise {A} e.


(** ** State with exceptions

    A method is a function from the object's state to an outcome and the
    state it leaves behind.  A raised exception does not undo the
    mutations made before it. *)
Definition M (S A : Type) : Type := S -> result A * S.

Section monad.
Context {S : Type}.

Definition ret {A} (a : A) : M S A := fun s => (Ok a, s).

Definition bind {A B} (c : M S A) (f : A -> M S B) : M S B :=
  fun s =>
    match c s with
    | (Ok a, s') => f a s'
    | (Raise e, s') => (Raise e, s')
    end.

Definition raise {A} (e : exn) : M S A := fun s => (Raise e, s).

Definition gets {A} (f : S -> A) : M S A := fun s => (Ok (f s), s).

Definition modify (f : S -> S) : M S unit := fun s => (Ok tt, f s).

(** [try: c except <exception>: h] where [h] may decline an exception by
    re-raising it. *)
Definition try_except {A} (c : M S A) (h : exn -> M S A) : M S A :=
  fun s =>
    match c s with
    | (Ok a, s') => (Ok a, s')
    | (Raise e, s') => h e s'
    end.

(** [for x in xs: body x] *)
Fixpoint for_each {X} (xs : list X) (body : X -> M S unit) : M S unit :=
  match xs with
  | [] => ret tt
  | x :: xs' => bind (body x) (fun _ => for_each xs' body)
  end.

(** Reading an attribute that was never assigned. *)
Definition attr {A} (attr_name : string) (f : S -> option A) : M S A :=
  fun s =>
    match f s with
    | Some a => (Ok a, s)
    | None => (Raise (AttributeError attr_name), s)
    end.

(** Lifting a fallible pure computation. *)
Definition lift {A} (r : result A) : M S A := fun s => (r, s).
End monad.

Declare Scope py_scope.
Delimit Scope py_scope with py.
Notation "x <- c1 ;; c2" := (bind c1 (fun x => c2))
  (at level 100, c1 at next level, right associativity) : py_scope.
Notation "c1 ;; c2" := (bind c1 (fun _ => c2))
  (at level 100, right associativity) : py_scope.
Local Open Scope py_scope.

(** ** The recorder ([recorder.py]) *)

Module MigrationRecorder.

(** The model class [MigrationRecorder.Migration]: one row of the
    [django_migrations] table, with the fields [app], [name] and
    [applied] (whose default is the current time). *)
Record Migration := mkRow {
  app : string;
  name : string;
  applied : Z
}.

#[global] Instance Row_eq_dec : EqDecision Migration.
Proof. solve_decision. Defined.

(** Modelled from the spec: the database connection, its introspection,
    its schema editor and the ORM query sets ([django.db]) are missing from
    the sources.  Following the spec's "persisted ledger schema" (a table
    with columns module, name, applied_at, queried as "all rows") and its
    "schema/storage connection" (a table-existence check and a
    create-table operation that may fail with a storage error), a
    connection is its alias, the rows of the ledger table when that table
    exists, and whether creating the table fails. *)
Record Connection := mkConnection {
  alias : string;
  django_migrations : option (list Migration);
  create_model_fails : bool
}.

Definition with_table (rows : option (list Migration)) (c : Connection) :=
  {| alias := alias c;
     django_migrations := rows;
     create_model_fails := create_model_fails c |}.

(** Modelled from the spec: [connection.introspection.table_names]
    followed by the membership test, that is the spec's [has_storage]. *)
Definition table_exists : M Connection bool :=
  gets (fun c => bool_decide (is_Some (django_migrations c))).

(** Modelled from the spec: [editor.create_model] inside
    [connection.schema_editor()]; it creates the empty table or fails with
    a storage error. *)
Definition create_model : M Connection unit :=
  fun c =>
    if create_model_fails c then (Raise DatabaseError, c)
    else (Ok tt, with_table (Some []) c).

(** Modelled from the spec: the query-set operations on the ledger table
    ("inserts or deletes the corresponding row", "deletes all records",
    "all rows").  A statement against a table that does not exist is a
    storage error. *)
Definition on_table {A} (f : list Migration -> A * list Migration)
  : M Connection A :=
  fun c =>
    match django_migrations c with
    | None => (Raise DatabaseError, c)
    | Some rows => let '(a, rows') := f rows in (Ok a, with_table (Some rows') c)
    end.

Definition qs_all : M Connection (list Migration) :=
  on_table (fun rows => (rows, rows)).

Definition qs_create (app name : string) (now : Z) : M Connection unit :=
  on_table (fun rows => (tt, rows ++ [mkRow app name now])).

Definition matches (app0 name0 : string) (m : Migration) : bool :=
  bool_decide (app m = app0 /\ name m = name0).

Definition qs_filter_delete (app name : string) : M Connection unit :=
  on_table (fun rows => (tt, filter (fun m => matches app name m = false) rows)).

Definition qs_all_delete : M Connection unit :=
  on_table (fun _ => (tt, [])).

(** [has_table] *)
Definition has_table : M Connection bool := table_exists.

(** [ensure_schema] *)
Definition ensure_schema : M Connection unit :=
  present <- has_table ;;
  if present then ret tt
  else
    try_except create_model
      (fun exc =>
         match exc with
         | DatabaseError => raise MigrationSchemaMissing
         | _ => raise exc
         end).

(** [applied_migrations] *)
Definition applied_migrations : M Connection (Dict.t key Migration) :=
  present <- has_table ;;
  if present then
    rows <- qs_all ;;
    ret (Dict.of_list (map (fun migration => ((app migration, name migration), migration)) rows))
  else ret Dict.empty.

(** [record_applied]; [now] is the clock reading that the [applied]
    field's default takes. *)
Definition record_applied (app name : string) (now : Z) : M Connection unit :=
  ensure_schema ;;
  qs_create app name now.

(** [record_unapplied] *)
Definition record_unapplied (app name : string) : M Connection unit :=
  ensure_schema ;;
  qs_filter_delete app name.

(** [flush] *)
Definition flush : M Connection unit := qs_all_delete.

End MigrationRecorder.

(** ** The dependency graph

    [django/db/migrations/graph.py] is not among the sources; the loader
    only calls it.  Its operations follow the contract the spec gives for
    the "Dependency Graph" component. *)

(** Python's order on [(app_label, name)] tuples: by label, then by name. *)
Definition key_leb (k1 k2 : key) : bool :=
  match String.compare k1.1 k2.1 with
  | Lt => true
  | Eq => String.leb k1.2 k2.2
  | Gt => false
  end.

Definition key_le (k1 k2 : key) : Prop := key_leb k1 k2 = true.

#[global] Instance key_le_dec k1 k2 : Decision (key_le k1 k2).
Proof. unfold key_le. apply _. Defined.

(** Modelled from the spec: an edge of the graph, missing from the sources.
    The spec's [add_dependency] "records parent→child edge" and keeps "the
    originating unit for diagnostics". *)
Record Edge := mkEdge {
  e_parent : key;
  e_child : key;
  e_origin : Migration
}.

#[global] Instance Edge_eq_dec : EqDecision Edge.
Proof. solve_decision. Defined.

(** Modelled from the spec: the class [MigrationGraph], missing from the
    sources: a "mapping from MigrationKey to Node" where a node "holds the
    MigrationUnit plus derived parent-set and child-set".  The edges are
    kept in the order they were recorded and the parent and child sets are
    derived from them. *)
Record MigrationGraph := mkGraph {
  nodes : gmap key Migration;
  edges : list Edge
}.

Module Graph.

(** Modelled from the spec: [MigrationGraph()], missing from the sources:
    the graph without nodes and edges. *)
Definition empty : MigrationGraph := mkGraph ∅ [].

(** Modelled from the spec: the membership tests [key in graph] and
    [key in graph.nodes], missing from the sources: the key is in the
    "mapping from MigrationKey to Node". *)
Definition contains (k : key) (g : MigrationGraph) : bool :=
  bool_decide (is_Some (nodes g !! k)).

(** Modelled from the spec: [graph.node_map[k].parents] and
    [graph.node_map[k].children], missing from the sources: the "derived
    parent-set and child-set" of a node. *)
Definition parents (g : MigrationGraph) (k : key) : list key :=
  e_parent <$> filter (fun e => e_child e = k) (edges g).

Definition children (g : MigrationGraph) (k : key) : list key :=
  e_child <$> filter (fun e => e_parent e = k) (edges g).

(** Modelled from the spec: [add_node], missing from the sources: "inserts
    a node; fails with DuplicateNodeError if key already present". *)
Definition add_node (k : key) (migration : Migration) (g : MigrationGraph)
  : result MigrationGraph :=
  if contains k g then Raise (DuplicateNodeError k)
  else Ok (mkGraph (<[k := migration]> (nodes g)) (edges g)).

(** Modelled from the spec: [add_dependency], missing from the sources:
    "records parent→child edge; if skip_validation is false and parent_key
    is absent, fails with NodeNotFoundError carrying the offending key and
    the originating unit". *)
Definition add_dependency (child_unit : Migration) (child_key parent_key : key)
    (skip_validation : bool) (g : MigrationGraph) : result MigrationGraph :=
  if negb skip_validation && negb (contains parent_key g) then
    Raise (NodeNotFoundError (MsgNonexistent child_unit parent_key)
             parent_key (Some child_unit))
  else Ok (mkGraph (nodes g) (edges g ++ [mkEdge parent_key child_key child_unit])).

(** Modelled from the spec: the repointing of one end of an edge in
    [remove_replaced_nodes], missing from the sources: an end at a replaced
    key goes "to replacement_key instead". *)
Definition repoint (replacement : key) (replaced : list key) (k : key) : key :=
  if decide (k ∈ replaced) then replacement else k.

(** Modelled from the spec: [remove_replaced_nodes], missing from the
    sources: "deletes each replaced node, repoints any edge that referenced
    a replaced node to replacement_key instead (both as parent and as
    child), preserving all other edges".  Read to the letter, an edge
    between two replaced keys ends up from the replacement to itself. *)
Definition remove_replaced_nodes (replacement : key) (replaced : list key)
    (g : MigrationGraph) : MigrationGraph :=
  mkGraph
    (foldr delete (nodes g) replaced)
    ((fun e => mkEdge (repoint replacement replaced (e_parent e))
                      (repoint replacement replaced (e_child e))
                      (e_origin e)) <$> edges g).

(** Modelled from the spec: the repointing of one end of an edge in
    [remove_replacement_node], missing from the sources: an end at the
    replacement goes "back onto the replaced keys", that is onto each of
    them. *)
Definition spread (replacement : key) (replaced : list key) (k : key)
  : list key :=
  if decide (k = replacement) then replaced else [k].

(** Modelled from the spec: [remove_replacement_node], missing from the
    sources: "deletes the replacement node itself, repoints edges that
    referenced it back onto the replaced keys so the original nodes remain
    authoritative". *)
Definition remove_replacement_node (replacement : key) (replaced : list key)
    (g : MigrationGraph) : MigrationGraph :=
  mkGraph
    (delete replacement (nodes g))
    (e ← edges g;
     p ← spread replacement replaced (e_parent e);
     c ← spread replacement replaced (e_child e);
     [mkEdge p c (e_origin e)]).

(** Modelled from the spec: the test "within a module" of [root_nodes] and
    [leaf_nodes], missing from the sources. *)
Definition in_app (app : string) (k : key) : bool := bool_decide (k.1 = app).

(** Modelled from the spec: [root_nodes] and [leaf_nodes], missing from the
    sources: "returns nodes within a module with no parents / no children
    respectively, sorted for determinism"; the glossary's leaf is "a unit
    with no dependents within its module", and roots are read the same
    way. *)
Definition root_nodes (app : string) (g : MigrationGraph) : list key :=
  merge_sort key_le
    (filter (fun k => in_app app k = true
                      /\ forallb (fun p => negb (in_app app p)) (parents g k) = true)
            (map_to_list (nodes g)).*1).

Definition leaf_nodes (app : string) (g : MigrationGraph) : list key :=
  merge_sort key_le
    (filter (fun k => in_app app k = true
                      /\ forallb (fun c => negb (in_app app c)) (children g k) = true)
            (map_to_list (nodes g)).*1).

(** Modelled from the spec: the missing end of an edge, if any, for
    [validate_consistency], missing from the sources: by the data model
    "every edge in a validated graph connects two nodes present in the
    graph". *)
Definition dangling (g : MigrationGraph) (e : Edge) : option key :=
  if negb (contains (e_parent e) g) then Some (e_parent e)
  else if negb (contains (e_child e) g) then Some (e_child e)
  else None.

(** Modelled from the spec: the first recorded edge with a missing end,
    with "the offending key and the originating unit". *)
Fixpoint first_dangling (g : MigrationGraph) (es : list Edge)
  : option (key * Migration) :=
  match es with
  | [] => None
  | e :: es' =>
      match dangling g e with
      | Some k => Some (k, e_origin e)
      | None => first_dangling g es'
      end
  end.

(** Modelled from the spec: [validate_consistency], missing from the
    sources.  It fails with NodeNotFoundError when an edge "still
    references a missing node after all edges are added"; the loader adds
    every edge with validation deferred, and the spec's missing-dependency
    property has such an edge fail the build, so every recorded edge is
    examined, in recording order. *)
Definition validate_consistency (g : MigrationGraph) : result unit :=
  match first_dangling g (edges g) with
  | Some (k, migration) =>
      Raise (NodeNotFoundError (MsgNonexistent migration k) k (Some migration))
  | None => Ok tt
  end.

(** Modelled from the spec: the traversal of [ensure_not_cyclic], missing
    from the sources: "a full depth-first traversal" that "detects a
    back-edge" and can "enumerate the offending cycle".  [path] is the
    stack of the keys being visited, most recent first; meeting a key of
    the stack again closes a cycle.  A stack never holds a key twice, so
    its height is bounded by the number of keys, and [depth] is given that
    bound (see [ensure_not_cyclic_acyclic]). *)
Fixpoint first_some {A B} (f : A -> option B) (l : list A) : option B :=
  match l with
  | [] => None
  | a :: l' => match f a with Some b => Some b | None => first_some f l' end
  end.

Fixpoint cycle_upto (k : key) (path : list key) : list key :=
  match path with
  | [] => []
  | k' :: path' => if decide (k' = k) then [k'] else k' :: cycle_upto k path'
  end.

Fixpoint visit (depth : nat) (g : MigrationGraph) (path : list key) (k : key)
  : option (list key) :=
  if decide (k ∈ path) then Some (reverse (cycle_upto k path))
  else
    match depth with
    | 0 => None
    | S depth' => first_some (visit depth' g (k :: path)) (children g k)
    end.

(** Modelled from the spec: the keys the traversal starts from: the nodes
    and the ends of the edges. *)
Definition all_keys (g : MigrationGraph) : list key :=
  (map_to_list (nodes g)).*1 ++ (e_parent <$> edges g) ++ (e_child <$> edges g).

(** Modelled from the spec: [ensure_not_cyclic], missing from the sources:
    "fails with CircularDependencyError if a full depth-first traversal
    detects a back-edge; must enumerate the offending cycle". *)
Definition ensure_not_cyclic (g : MigrationGraph) : result unit :=
  match first_some (visit (S (length (all_keys g))) g []) (all_keys g) with
  | Some cycle => Raise (CircularDependencyError cycle)
  | None => Ok tt
  end.

End Graph.

(** ** The loader ([loader.py]) *)

(** *** What the loader finds on disk

    [load_disk] asks the app registry for the installed apps and the import
    system for each app's migrations package and for every module in it.
    The answers of those collaborators are the input of the model. *)

(** The outcome of [import_module(migration_path)] for one file of a
    migrations package: an [ImportError] (whose text may contain "bad magic
    number"), a module without a [Migration] class, or a module whose
    [Migration] class has the given class attributes. *)
Inductive migration_module :=
| ImportFails (bad_magic_number : bool)
| NoMigrationClass
| MigrationClass (deps runs_before replaced : list key).

(** One entry of [pkgutil.iter_modules(module.__path__)]. *)
Record module_info := mkModuleInfo {
  info_name : string;
  is_pkg : bool;
  imported : migration_module
}.

(** The outcome of [import_module(module_name)] for a migrations package:
    a [ModuleNotFoundError] (with whether "migrations" is a component of
    the missing module's name), or a module with or without [__path__] and
    [__file__], whose [__path__] is or is not a list. *)
Inductive migrations_package :=
| NotFound (names_migrations : bool)
| Module_ (has_path has_file path_is_list : bool) (contents : list module_info).

(** An installed app: its label and what [migrations_module(label)] leads
    to.  [module_name = None] is the setting [MIGRATION_MODULES[label] =
    None]; [explicit] tells whether the label is in [MIGRATION_MODULES]. *)
Record AppConfig := mkAppConfig {
  label : string;
  explicit : bool;
  module_name : option migrations_package
}.

(** A value of the loader's [applied_migrations] dictionary: a row read by
    the recorder, or the squash migration that [build_graph] stores. *)
Inductive applied_value :=
| Recorded (row : MigrationRecorder.Migration)
| Replacing (migration : Migration).

(** *** The loader object *)

(** The attributes of a [MigrationLoader].  [disk_migrations] and
    [applied_migrations] are [None] until the first build; the other
    session attributes do not exist until then.  [connection] is the
    connection object the loader was given, or [None]. *)
Record MigrationLoader := mkLoader {
  connection : option MigrationRecorder.Connection;
  ignore_no_migrations : bool;
  replace_migrations : bool;
  disk_migrations : option (Dict.t key Migration);
  applied_migrations : option (Dict.t key applied_value);
  unmigrated_apps : option (gset string);
  migrated_apps : option (gset string);
  graph : option MigrationGraph;
  replacements : option (Dict.t key Migration)
}.

(** Attribute assignments. *)
Definition set_disk_migrations v (s : MigrationLoader) :=
  mkLoader (connection s) (ignore_no_migrations s) (replace_migrations s)
    (Some v) (applied_migrations s) (unmigrated_apps s)
    (migrated_apps s) (graph s) (replacements s).
Definition set_applied_migrations v (s : MigrationLoader) :=
  mkLoader (connection s) (ignore_no_migrations s) (replace_migrations s)
    (disk_migrations s) (Some v) (unmigrated_apps s)
    (migrated_apps s) (graph s) (replacements s).
Definition set_unmigrated_apps v (s : MigrationLoader) :=
  mkLoader (connection s) (ignore_no_migrations s) (replace_migrations s)
    (disk_migrations s) (applied_migrations s) (Some v)
    (migrated_apps s) (graph s) (replacements s).
Definition set_migrated_apps v (s : MigrationLoader) :=
  mkLoader (connection s) (ignore_no_migrations s) (replace_migrations s)
    (disk_migrations s) (applied_migrations s) (unmigrated_apps s)
    (Some v) (graph s) (replacements s).
Definition set_graph v (s : MigrationLoader) :=
  mkLoader (connection s) (ignore_no_migrations s) (replace_migrations s)
    (disk_migrations s) (applied_migrations s) (unmigrated_apps s)
    (migrated_apps s) (Some v) (replacements s).
Definition set_replacements v (s : MigrationLoader) :=
  mkLoader (connection s) (ignore_no_migrations s) (replace_migrations s)
    (disk_migrations s) (applied_migrations s) (unmigrated_apps s)
    (migrated_apps s) (graph s) (Some v).

(** The attribute assignments of [__init__]. *)
Definition init (conn : option MigrationRecorder.Connection)
    (ignore_no_migrations replace_migrations : bool) : MigrationLoader :=
  mkLoader conn ignore_no_migrations replace_migrations
    None None None None None None.

(** Asking a recorder built on the connection [c]; the query methods of
    the recorder leave the connection as it is (see
    [applied_migrations_reads]). *)
Definition ask_recorder {A} (c : MigrationRecorder.Connection)
    (method : M MigrationRecorder.Connection A) : M MigrationLoader A :=
  lift (method c).1.

(** In-place updates of the attributes that hold mutable objects. *)
Definition update_graph (f : MigrationGraph -> result MigrationGraph)
  : M MigrationLoader unit :=
  g <- attr "graph" graph ;;
  g' <- lift (f g) ;;
  modify (set_graph g').

Definition update_applied
    (f : Dict.t key applied_value -> Dict.t key applied_value)
  : M MigrationLoader unit :=
  d <- attr "applied_migrations" applied_migrations ;;
  modify (set_applied_migrations (f d)).

Definition update_replacements (f : Dict.t key Migration -> Dict.t key Migration)
  : M MigrationLoader unit :=
  d <- attr "replacements" replacements ;;
  modify (set_replacements (f d)).

Definition update_disk (f : Dict.t key Migration -> Dict.t key Migration)
  : M MigrationLoader unit :=
  d <- attr "disk_migrations" disk_migrations ;;
  modify (set_disk_migrations (f d)).

Definition add_unmigrated (app : string) : M MigrationLoader unit :=
  apps <- attr "unmigrated_apps" unmigrated_apps ;;
  modify (set_unmigrated_apps ({[app]} ∪ apps)).

Definition add_migrated (app : string) : M MigrationLoader unit :=
  apps <- attr "migrated_apps" migrated_apps ;;
  modify (set_migrated_apps ({[app]} ∪ apps)).

(** *** [load_disk] *)

(** [name[0] not in "_~"] *)
Definition public_name (name : string) : result bool :=
  match name with
  | EmptyString => Raise IndexError
  | String c _ => Ok (negb (bool_decide (c = "_"%char \/ c = "~"%char)))
  end.

(** The set comprehension [migration_names]; the set keeps one copy of each
    name, and is later iterated in the order modelled by this list. *)
Fixpoint migration_names (contents : list module_info) : result (list string) :=
  match contents with
  | [] => Ok []
  | info :: contents' =>
      if is_pkg info then migration_names contents'
      else
        match public_name (info_name info) with
        | Raise e => Raise e
        | Ok keep =>
            match migration_names contents' with
            | Raise e => Raise e
            | Ok names =>
                Ok (if keep then
                      info_name info :: filter (fun n => n <> info_name info) names
                    else names)
            end
        end
  end.

(** [import_module("%s.%s" % (module_name, migration_name))] *)
Definition import_migration (contents : list module_info) (migration_name : string)
  : migration_module :=
  match filter (fun info => info_name info = migration_name) contents with
  | info :: _ => imported info
  | [] => ImportFails false
  end.

(** The body of the loop over [migration_names]. *)
Definition load_migration (app_config : AppConfig) (contents : list module_info)
    (migration_name : string) : M MigrationLoader unit :=
  match import_migration contents migration_name with
  | ImportFails bad_magic_number => raise (ImportError bad_magic_number)
  | NoMigrationClass =>
      raise (BadMigrationError migration_name (label app_config))
  | MigrationClass deps runs_before replaced =>
      update_disk
        (Dict.set (label app_config, migration_name)
           (mkMigration migration_name (label app_config)
              deps runs_before replaced))
  end.

(** The body of the loop over [apps.get_app_configs()]. *)
Definition load_app (app_config : AppConfig) : M MigrationLoader unit :=
  match module_name app_config with
  | None => add_unmigrated (label app_config)
  | Some (NotFound names_migrations) =>
      ignore <- gets ignore_no_migrations ;;
      if (explicit app_config && ignore)
         || (negb (explicit app_config) && names_migrations)
      then add_unmigrated (label app_config)
      else raise ModuleNotFoundError
  | Some (Module_ has_path has_file path_is_list contents) =>
      if negb has_path then add_unmigrated (label app_config)
      else if negb has_file && negb path_is_list then
        add_unmigrated (label app_config)
      else
        add_migrated (label app_config) ;;
        names <- lift (migration_names contents) ;;
        for_each names (load_migration app_config contents)
  end.

Definition load_disk (app_configs : list AppConfig) : M MigrationLoader unit :=
  modify (set_disk_migrations Dict.empty) ;;
  modify (set_unmigrated_apps ∅) ;;
  modify (set_migrated_apps ∅) ;;
  for_each app_configs load_app.

(** *** Wiring *)

(** [check_key] *)
Definition check_key (k : key) (current_app : string)
  : M MigrationLoader (option key) :=
  if bool_decide (k.2 <> "__first__" /\ k.2 <> "__latest__") then ret (Some k)
  else
  g <- attr "graph" graph ;;
  if Graph.contains k g then ret (Some k)
  else if bool_decide (k.1 = current_app) then ret None
  else
    unmigrated <- attr "unmigrated_apps" unmigrated_apps ;;
    if bool_decide (k.1 ∈ unmigrated) then ret None
    else
      migrated <- attr "migrated_apps" migrated_apps ;;
      if bool_decide (k.1 ∈ migrated) then
        match (if bool_decide (k.2 = "__first__")
               then Graph.root_nodes k.1 g else Graph.leaf_nodes k.1 g) with
        | node :: _ => ret (Some node)
        | [] =>
            ignore <- gets ignore_no_migrations ;;
            if ignore then ret None
            else raise (ValueError
                          ("Dependency on app with no migrations: " +:+ k.1))
        end
      else raise (ValueError ("Dependency on unknown app: " +:+ k.1)).

(** [self.graph.add_dependency(migration, child, parent, skip_validation=True)] *)
Definition add_dependency (migration : Migration) (child parent : key)
  : M MigrationLoader unit :=
  update_graph (Graph.add_dependency migration child parent true).

(** The body of the loop of [add_internal_dependencies]. *)
Definition internal_dependency (k : key) (migration : Migration) (parent : key)
  : M MigrationLoader unit :=
  if bool_decide (parent.1 = k.1) && bool_decide (parent.2 <> "__first__")
  then add_dependency migration k parent
  else ret tt.

(** [add_internal_dependencies] *)
Definition add_internal_dependencies (k : key) (migration : Migration)
  : M MigrationLoader unit :=
  for_each (dependencies migration) (internal_dependency k migration).

(** The bodies of the two loops of [add_external_dependencies]. *)
Definition external_dependency (k : key) (migration : Migration) (parent : key)
  : M MigrationLoader unit :=
  if bool_decide (k.1 = parent.1) then ret tt
  else
    parent' <- check_key parent k.1 ;;
    match parent' with
    | Some parent' => add_dependency migration k parent'
    | None => ret tt
    end.

Definition run_before_dependency (k : key) (migration : Migration) (child : key)
  : M MigrationLoader unit :=
  child' <- check_key child k.1 ;;
  match child' with
  | Some child' => add_dependency migration child' k
  | None => ret tt
  end.

(** [add_external_dependencies] *)
Definition add_external_dependencies (k : key) (migration : Migration)
  : M MigrationLoader unit :=
  for_each (dependencies migration) (external_dependency k migration) ;;
  for_each (run_before migration) (run_before_dependency k migration).

(** *** [build_graph]

    The body of [build_graph] is cut at its own comments into the phases
    below; [build_graph] runs them in sequence. *)

(** "Load database data" *)
Definition load_applied : M MigrationLoader unit :=
  conn <- gets connection ;;
  match conn with
  | None => modify (set_applied_migrations Dict.empty)
  | Some c =>
      rows <- ask_recorder c MigrationRecorder.applied_migrations ;;
      modify (set_applied_migrations (prod_map id Recorded <$> rows))
  end.

(** "Populate the migration graph with nodes for ALL migrations ... Also
    make note of replacing migrations at this step." *)
Definition add_nodes : M MigrationLoader unit :=
  modify (set_graph Graph.empty) ;;
  modify (set_replacements Dict.empty) ;;
  disk <- attr "disk_migrations" disk_migrations ;;
  for_each disk (fun '(k, migration) =>
    update_graph (Graph.add_node k migration) ;;
    if bool_decide (replaces migration <> [])
    then update_replacements (Dict.set k migration)
    else ret tt).

(** "Internal (same app) dependencies", then "Add external dependencies
    now that the internal ones have been resolved." *)
Definition add_dependencies : M MigrationLoader unit :=
  disk <- attr "disk_migrations" disk_migrations ;;
  for_each disk (fun '(k, migration) => add_internal_dependencies k migration) ;;
  disk <- attr "disk_migrations" disk_migrations ;;
  for_each disk (fun '(k, migration) => add_external_dependencies k migration).

(** The body of the loop "Carry out replacements where possible". *)
Definition carry_out_replacement (k : key) (migration : Migration)
  : M MigrationLoader unit :=
  applied <- attr "applied_migrations" applied_migrations ;;
  let applied_statuses :=
    (fun target => Dict.mem target applied) <$> replaces migration in
  (if forallb id applied_statuses
   then update_applied (Dict.set k (Replacing migration))
   else update_applied (Dict.pop k)) ;;
  if forallb id applied_statuses || negb (existsb id applied_statuses)
  then update_graph
         (fun g => Ok (Graph.remove_replaced_nodes k (replaces migration) g))
  else update_graph
         (fun g => Ok (Graph.remove_replacement_node k (replaces migration) g)).

Definition carry_out_replacements : M MigrationLoader unit :=
  enabled <- gets replace_migrations ;;
  if enabled then
    squashes <- attr "replacements" replacements ;;
    for_each squashes (fun '(k, migration) => carry_out_replacement k migration)
  else ret tt.

(** "Get reverse replacements": for every replaced key, the set of the
    squash migrations that name it, in the order they were added. *)
Definition setdefault_add (replaced k : key) (d : Dict.t key (list key))
  : Dict.t key (list key) :=
  let candidates := default [] (Dict.get replaced d) in
  Dict.set replaced
    (if decide (k ∈ candidates) then candidates else candidates ++ [k]) d.

Definition reverse_replacements (squashes : Dict.t key Migration)
  : Dict.t key (list key) :=
  fold_left
    (fun d '(k, migration) =>
       fold_left (fun d replaced => setdefault_add replaced k d)
         (replaces migration) d)
    squashes Dict.empty.

(** The handler of [except NodeNotFoundError as exc]. *)
Definition diagnose (exc : exn) : M MigrationLoader unit :=
  match exc with
  | NodeNotFoundError _ node origin =>
      squashes <- attr "replacements" replacements ;;
      match Dict.get node (reverse_replacements squashes) with
      | Some candidates =>
          g <- attr "graph" graph ;;
          let is_replaced :=
            existsb (fun candidate => Graph.contains candidate g) candidates in
          if negb is_replaced then
            raise (NodeNotFoundError
                     (MsgTriedReplace origin node candidates) node None)
          else raise exc
      | None => raise exc
      end
  | _ => raise exc
  end.

(** "Ensure the graph is consistent." *)
Definition ensure_consistent : M MigrationLoader unit :=
  try_except
    (g <- attr "graph" graph ;; lift (Graph.validate_consistency g))
    diagnose.

Definition ensure_not_cyclic : M MigrationLoader unit :=
  g <- attr "graph" graph ;; lift (Graph.ensure_not_cyclic g).

Definition build_graph (app_configs : list AppConfig) : M MigrationLoader unit :=
  load_disk app_configs ;;
  load_applied ;;
  add_nodes ;;
  add_dependencies ;;
  carry_out_replacements ;;
  ensure_consistent ;;
  ensure_not_cyclic.


(** *** [check_consistent_history] *)

Definition history_message (migration parent : key) (alias : string) : string :=
  "Migration " +:+ migration.1 +:+ "." +:+ migration.2 +:+
  " is applied before its dependency " +:+ parent.1 +:+ "." +:+ parent.2 +:+
  " on database '" +:+ alias +:+ "'.".

(** The test that lets an unapplied parent pass: "Skip unapplied squashed
    migrations that have all of their `replaces` applied." *)
Definition squashed_with_replaces_applied {V} (squashes : Dict.t key Migration)
    (applied : Dict.t key V) (parent : key) : bool :=
  match Dict.get parent squashes with
  | Some squash => forallb (fun m => Dict.mem m applied) (replaces squash)
  | None => false
  end.

(** The body of the loop over the parents of [migration]. *)
Definition check_parent {V} (conn : MigrationRecorder.Connection)
    (applied : Dict.t key V) (migration parent : key) : M MigrationLoader unit :=
  if Dict.mem parent applied then ret tt
  else
    squashes <- attr "replacements" replacements ;;
    if squashed_with_replaces_applied squashes applied parent then ret tt
    else raise (InconsistentMigrationHistory
                  (history_message migration parent
                     (MigrationRecorder.alias conn))).

Definition check_consistent_history (conn : MigrationRecorder.Connection)
  : M MigrationLoader unit :=
  applied <- ask_recorder conn MigrationRecorder.applied_migrations ;;
  for_each (Dict.keys applied) (fun migration =>
    g <- attr "graph" graph ;;
    if negb (Graph.contains migration g) then ret tt
    else for_each (Graph.parents g migration) (check_parent conn applied migration)).

(** *** Lookups *)

(** The exceptions of the lookups, which the loader raises nowhere else:
    [KeyError] (with the missing key when a dictionary raises it, with a
    message when [get_migration_by_prefix] does), [AmbiguityError], and
    the [TypeError] of iterating over [None]. *)
Inductive lookup_exn :=
| LookupAttributeError (attr : string)
| TypeError (msg : string)
| KeyError (arg : key + string)
| AmbiguityError (msg : string).

Inductive found (A : Type) :=
| Found (a : A)
| Fails (e : lookup_exn).
#[global] Arguments Found {A} a.
#[global] Arguments Fails {A} e.

(** [get_migration]: the subscription [self.graph.nodes[app_label,
    name_prefix]] of the node mapping. *)
Definition get_migration (app_label name_prefix : string) (s : MigrationLoader)
  : found Migration :=
  match graph s with
  | None => Fails (LookupAttributeError "graph")
  | Some g =>
      match nodes g !! (app_label, name_prefix) with
      | Some migration => Found migration
      | None => Fails (KeyError (inl (app_label, name_prefix)))
      end
  end.

(** [migration_name.startswith(name_prefix)] *)
Definition startswith (migration_name name_prefix : string) : bool :=
  String.prefix name_prefix migration_name.

(** [get_migration_by_prefix] *)
Definition get_migration_by_prefix (app_label name_prefix : string)
    (s : MigrationLoader) : found Migration :=
  match disk_migrations s with
  | None => Fails (TypeError "'NoneType' object is not iterable")
  | Some disk =>
      let results :=
        filter (fun k => k.1 = app_label /\ startswith k.2 name_prefix = true)
          (Dict.keys disk) in
      if decide (1 < length results) then
        Fails (AmbiguityError
                 ("There is more than one migration for '" +:+ app_label +:+
                  "' with the prefix '" +:+ name_prefix +:+ "'"))
      else
        match results with
        | [] =>
            Fails (KeyError
                     (inr ("There is no migration for '" +:+ app_label +:+
                           "' with the prefix '" +:+ name_prefix +:+ "'")))
        | k :: _ =>
            match Dict.get k disk with
            | Some migration => Found migration
            | None => Fails (KeyError (inl k))
            end
        end
  end.

(** *** [detect_conflicts] *)

(** Modelled from the spec: [leaf_nodes()] called without an app, missing
    from the sources: [leaf_nodes(module_label?)] "returns nodes within a
    module with ... no children ..., sorted for determinism"; without a
    module these are the nodes of every module that have no child within
    their own module. *)
Definition all_leaf_nodes (g : MigrationGraph) : list key :=
  merge_sort key_le
    (filter (fun k => forallb (fun c => negb (Graph.in_app k.1 c))
                        (Graph.children g k) = true)
            (map_to_list (nodes g)).*1).

(** The body of the loop of [detect_conflicts], on the pair of
    [seen_apps] and [conflicting_apps]. *)
Definition note_leaf (seen : gmap string (gset string) * gset string)
    (leaf : key) : gmap string (gset string) * gset string :=
  let '(seen_apps, conflicting_apps) := seen in
  (<[leaf.1 := {[leaf.2]} ∪ default ∅ (seen_apps !! leaf.1)]> seen_apps,
   if decide (is_Some (seen_apps !! leaf.1))
   then {[leaf.1]} ∪ conflicting_apps
   else conflicting_apps).

(** The dictionary that [detect_conflicts] returns for the leaves
    [leaves]; [sorted] puts the names of a set in the order of Python's
    strings. *)
Definition conflicts (leaves : list key) : gmap string (list string) :=
  let '(seen_apps, conflicting_apps) := fold_left note_leaf leaves (∅, ∅) in
  set_to_map
    (fun app_label =>
       (app_label,
        merge_sort String.le (elements (default ∅ (seen_apps !! app_label)))))
    conflicting_apps.

(** [detect_conflicts] *)
Definition detect_conflicts : M MigrationLoader (gmap string (list string)) :=
  g <- attr "graph" graph ;;
  ret (conflicts (all_leaf_nodes g)).

(** ** Vocabulary of the statements *)

(** The rows of the ledger, none when the table does not exist. *)
Definition ledger_rows (c : MigrationRecorder.Connection)
  : list MigrationRecorder.Migration :=
  default [] (MigrationRecorder.django_migrations c).

(** The dictionary that [applied_migrations] builds from the rows. *)
Definition ledger_dict (rows : list MigrationRecorder.Migration)
  : Dict.t key MigrationRecorder.Migration :=
  Dict.of_list
    (map (fun m => ((MigrationRecorder.app m, MigrationRecorder.name m), m)) rows).

(** Storage can be ensured: the table is there or can be created. *)
Definition storage_available (c : MigrationRecorder.Connection) : Prop :=
  is_Some (MigrationRecorder.django_migrations c)
  \/ MigrationRecorder.create_model_fails c = false.

(** Running a method and keeping the outcome, or the state. *)
Definition outcome {S A} (c : M S A) (s : S) : result A := (c s).1.
Definition state_after {S A} (c : M S A) (s : S) : S := (c s).2.

(** Two loader states that differ at most in the edges of their graphs. *)
Definition same_nodes (g g' : MigrationGraph) : Prop := nodes g = nodes g'.

Record edges_only (s s' : MigrationLoader) : Prop := mkEdgesOnly {
  eo_connection : connection s' = connection s;
  eo_ignore : ignore_no_migrations s' = ignore_no_migrations s;
  eo_replace : replace_migrations s' = replace_migrations s;
  eo_disk : disk_migrations s' = disk_migrations s;
  eo_applied : applied_migrations s' = applied_migrations s;
  eo_unmigrated : unmigrated_apps s' = unmigrated_apps s;
  eo_migrated : migrated_apps s' = migrated_apps s;
  eo_replacements : replacements s' = replacements s;
  eo_graph : option_Forall2 same_nodes (graph s) (graph s')
}.

(** A key that names one of the two sentinels. *)
Definition sentinel (k : key) : Prop := k.2 = "__first__" \/ k.2 = "__latest__".

(** The graph of the loader exists and has no node [k]. *)
Definition not_a_node (k : key) (s : MigrationLoader) : Prop :=
  exists g, graph s = Some g /\ Graph.contains k g = false.

(** What [check_consistent_history] looks for: [migration] is recorded as
    applied and is a graph node, [parent] is one of its parents and is not
    recorded as applied, and [parent] is not a squash migration all of
    whose replaced migrations are recorded as applied. *)
Definition unapplied_dependency {V} (g : MigrationGraph)
    (squashes : Dict.t key Migration) (applied : Dict.t key V)
    (migration parent : key) : Prop :=
  migration ∈ Dict.keys applied
  /\ Graph.contains migration g = true
  /\ parent ∈ Graph.parents g migration
  /\ Dict.mem parent applied = false
  /\ squashed_with_replaces_applied squashes applied parent = false.

(** The exemption as the specification words it: [parent] is a replacement
    target (it is named in the [replaces] of a squash unit) and the full
    [replaces] set of that squash unit is applied. *)
Definition replaced_by_applied_squash {V} (squashes : Dict.t key Migration)
    (applied : Dict.t key V) (parent : key) : Prop :=
  exists squash_key squash,
    Dict.get squash_key squashes = Some squash
    /\ parent ∈ replaces squash
    /\ forall m, m ∈ replaces squash -> Dict.mem m applied = true.

(** The violating pairs as the specification words them. *)
Definition unapplied_dependency_as_worded {V} (g : MigrationGraph)
    (squashes : Dict.t key Migration) (applied : Dict.t key V)
    (migration parent : key) : Prop :=
  migration ∈ Dict.keys applied
  /\ Graph.contains migration g = true
  /\ parent ∈ Graph.parents g migration
  /\ Dict.mem parent applied = false
  /\ ~ replaced_by_applied_squash squashes applied parent.

(** The squash migration [k] of [squashes] names [node] in its
    [replaces]. *)
Definition names_target (squashes : Dict.t key Migration) (node k : key) : Prop :=
  exists migration, (k, migration) ∈ squashes /\ node ∈ replaces migration.

(** The pairs (squash key, replaced key), in the order in which "Get
    reverse replacements" meets them. *)
Definition replaced_pairs (squashes : Dict.t key Migration) : list (key * key) :=
  '(k, migration) ← squashes; (fun replaced => (k, replaced)) <$> replaces migration.

(** What the dictionary of reverse replacements holds once the pairs
    [pairs] have been entered. *)
Definition tracks (pairs : list (key * key)) (d : Dict.t key (list key)) : Prop :=
  forall node,
    match Dict.get node d with
    | Some candidates =>
        candidates <> [] /\ forall k, k ∈ candidates <-> (k, node) ∈ pairs
    | None => forall k, (k, node) ∉ pairs
    end.

(** [build_graph] up to and including "Carry out replacements", that is
    before the graph is validated. *)
Definition reconciled (app_configs : list AppConfig) : M MigrationLoader unit :=
  load_disk app_configs ;;
  load_applied ;;
  add_nodes ;;
  add_dependencies ;;
  carry_out_replacements.

(** [build_graph] up to and including the wiring of the dependencies, that
    is before the replacements are carried out. *)
Definition wired (app_configs : list AppConfig) : M MigrationLoader unit :=
  load_disk app_configs ;;
  load_applied ;;
  add_nodes ;;
  add_dependencies.

(** Two loaders constructed with the same arguments. *)
Definition same_config (s1 s2 : MigrationLoader) : Prop :=
  connection s1 = connection s2
  /\ ignore_no_migrations s1 = ignore_no_migrations s2
  /\ replace_migrations s1 = replace_migrations s2.



(** A computation that leaves the attributes read by [f] as they were. *)
Definition keeps {S A B} (f : S -> B) (c : M S A) : Prop :=
  forall s, f (c s).2 = f s.

(** The attributes that [load_disk] does not assign. *)
Definition beyond_discovery (s : MigrationLoader) :=
  (connection s, ignore_no_migrations s, replace_migrations s,
   applied_migrations s, graph s, replacements s).

(** The dictionary of disk migrations is a dictionary: no key twice. *)
Definition disk_is_dict (s : MigrationLoader) : Prop :=
  match disk_migrations s with
  | Some disk => NoDup (Dict.keys disk)
  | None => True
  end.

(** What "Load database data" assigns to [applied_migrations]. *)
Definition ledger_snapshot (s : MigrationLoader) : Dict.t key applied_value :=
  match connection s with
  | None => Dict.empty
  | Some c => prod_map id Recorded <$> ledger_dict (ledger_rows c)
  end.

(** The node mapping and the replacements that the first loop of
    [build_graph] makes of the disk migrations. *)
Definition insert_nodes (n : gmap key Migration) (disk : Dict.t key Migration)
  : gmap key Migration :=
  foldl (fun n '(k, migration) => <[k := migration]> n) n disk.

Definition squashes_of (disk : Dict.t key Migration) : Dict.t key Migration :=
  filter (fun km => replaces km.2 <> []) disk.

(** One iteration of "Carry out replacements", as a function of the
    applied view and of the graph. *)
Definition all_applied {V} (applied : Dict.t key V) (migration : Migration) : bool :=
  forallb id ((fun target => Dict.mem target applied) <$> replaces migration).

Definition any_applied {V} (applied : Dict.t key V) (migration : Migration) : bool :=
  existsb id ((fun target => Dict.mem target applied) <$> replaces migration).

Definition usable {V} (applied : Dict.t key V) (migration : Migration) : bool :=
  all_applied applied migration || negb (any_applied applied migration).

Definition replacement_step (view : Dict.t key applied_value * MigrationGraph)
    (squash : key * Migration) : Dict.t key applied_value * MigrationGraph :=
  let '(applied, g) := view in
  let '(k, migration) := squash in
  (if all_applied applied migration
   then Dict.set k (Replacing migration) applied
   else Dict.pop k applied,
   if usable applied migration
   then Graph.remove_replaced_nodes k (replaces migration) g
   else Graph.remove_replacement_node k (replaces migration) g).

Definition replacement_steps (squashes : Dict.t key Migration)
    (view : Dict.t key applied_value * MigrationGraph)
  : Dict.t key applied_value * MigrationGraph :=
  foldl replacement_step view squashes.

(** The constructor arguments of a loader. *)
Definition config (s : MigrationLoader) :=
  (connection s, ignore_no_migrations s, replace_migrations s).


(** The edge [e] has the key [k] at one of its ends. *)
Definition touches (k : key) (e : Edge) : Prop :=
  e_parent e = k \/ e_child e = k.

(** No squash migration of [squashes] is the key [x] or names [x] in its
    [replaces]. *)
Definition apart (squashes : Dict.t key Migration) (x : key) : Prop :=
  Forall (fun km => x <> km.1 /\ x ∉ replaces km.2) squashes.

(** No squash migration of [squashes] other than [R] is the key [x] or
    names [x] in its [replaces]. *)
Definition undisturbed (squashes : Dict.t key Migration) (R x : key) : Prop :=
  Forall (fun km => km.1 = R \/ (x <> km.1 /\ x ∉ replaces km.2)) squashes.

(** The edge [e'] stands for the edge [e] after replacements: it was
    declared by the same unit, an end of [e] that is in [from] has become
    [to], and an end that no squash migration of [squashes] concerns is
    still there. *)
Definition stands_for (squashes : Dict.t key Migration) (from : list key)
    (to : key) (e e' : Edge) : Prop :=
  e_origin e' = e_origin e
  /\ (e_parent e ∈ from -> e_parent e' = to)
  /\ (e_child e ∈ from -> e_child e' = to)
  /\ (apart squashes (e_parent e) -> e_parent e' = e_parent e)
  /\ (apart squashes (e_child e) -> e_child e' = e_child e).





(** ** Sample inputs *)

Module Sample.

(** A migration file of an app: its name and the class attributes of its
    [Migration] class. *)
Definition file (name : string) (deps runs_before replaced : list key)
  : module_info :=
  mkModuleInfo name false (MigrationClass deps runs_before replaced).

(** An app with an ordinary migrations package. *)
Definition app (label : string) (files : list module_info) : AppConfig :=
  mkAppConfig label false (Some (Module_ true true true files)).

(** The connection "default" whose ledger table holds the given keys. *)
Definition ledger (applied : list key) : MigrationRecorder.Connection :=
  MigrationRecorder.mkConnection "default"
    (Some ((fun k => MigrationRecorder.mkRow k.1 k.2 0) <$> applied)) false.

(** A loader that was constructed with [load=False]. *)
Definition loader (applied : list key) : MigrationLoader :=
  init (Some (ledger applied)) false true.

(** App X with 0001, its squash 0001_squashed, and 0002 on top of 0001. *)
Definition squashed_app : list AppConfig :=
  [app "X" [file "0001" [] [] [];
            file "0001_squashed" [] [] [("X", "0001")];
            file "0002" [("X", "0001")] [] []]].

(** App X where [R] squashes [a] and [b], [b] is no longer on disk, and
    [c] still depends on [b]. *)
Definition deleted_target : list AppConfig :=
  [app "X" [file "a" [] [] [];
            file "R" [] [] [("X", "a"); ("X", "b")];
            file "c" [("X", "b")] [] []]].

(** App X where [R] squashes the unrelated [a] and [b]. *)
Definition plain_squash : list AppConfig :=
  [app "X" [file "a" [] [] [];
            file "b" [] [] [];
            file "R" [] [] [("X", "a"); ("X", "b")];
            file "c" [("X", "a")] [] []]].


(** App X where [R] squashes [a] and [b] and [b] is no longer on disk. *)
Definition half_deleted : list AppConfig :=
  [app "X" [file "a" [] [] [];
            file "R" [] [] [("X", "a"); ("X", "b")]]].

End Sample.

(** * Properties *)

(** ** Dictionaries *)

Section dict_facts.
Context {K V : Type} `{EqDecision K}.
Implicit Types (d : Dict.t K V) (k : K) (v : V).

Lemma dict_get_set_eq d k v : Dict.get k (Dict.set k v d) = Some v.
Proof.
  induction d as [|[k' v'] d IH]; simpl.
  - by rewrite decide_True.
  - destruct (decide (k = k')) as [->|Hne]; simpl.
    + by rewrite decide_True.
    + by rewrite decide_False.
Qed.

Lemma dict_get_set_ne d k k' v :
  k <> k' -> Dict.get k' (Dict.set k v d) = Dict.get k' d.
Proof.
  intros Hne. induction d as [|[k0 v0] d IH]; simpl.
  - by rewrite decide_False.
  - destruct (decide (k = k0)) as [->|Hk]; simpl.
    + by rewrite !decide_False.
    + destruct (decide (k' = k0)); [done | apply IH].
Qed.

Lemma dict_keys_cons d k v : Dict.keys ((k, v) :: d) = k :: Dict.keys d.
Proof. done. Qed.

Lemma dict_get_Some_keys d k : is_Some (Dict.get k d) <-> k ∈ Dict.keys d.
Proof.
  induction d as [|[k' v'] d IH].
  - split; [by intros [? ?] | by intros ?%elem_of_nil].
  - rewrite dict_keys_cons, elem_of_cons. simpl.
    destruct (decide (k = k')) as [->|Hne].
    + split; [by left | by eexists].
    + rewrite IH. naive_solver.
Qed.

Lemma dict_mem_keys d k : Dict.mem k d = true <-> k ∈ Dict.keys d.
Proof.
  unfold Dict.mem. rewrite bool_decide_eq_true. apply dict_get_Some_keys.
Qed.

Lemma dict_mem_false d k : Dict.mem k d = false <-> k ∉ Dict.keys d.
Proof.
  rewrite <- dict_mem_keys. destruct (Dict.mem k d); naive_solver.
Qed.

Lemma dict_keys_set_present d k v :
  k ∈ Dict.keys d -> Dict.keys (Dict.set k v d) = Dict.keys d.
Proof.
  induction d as [|[k' v'] d IH].
  - by intros ?%elem_of_nil.
  - rewrite dict_keys_cons. simpl. intros Hin.
    destruct (decide (k = k')) as [->|Hne]; [done|].
    rewrite !dict_keys_cons. f_equal. apply IH.
    apply elem_of_cons in Hin as [?|?]; done.
Qed.

Lemma dict_keys_set_absent d k v :
  k ∉ Dict.keys d -> Dict.keys (Dict.set k v d) = Dict.keys d ++ [k].
Proof.
  induction d as [|[k' v'] d IH]; [done|].
  rewrite dict_keys_cons. simpl.
  intros Hnin%not_elem_of_cons. destruct Hnin as [Hne Hnin].
  rewrite decide_False by done. rewrite dict_keys_cons. by rewrite IH.
Qed.

Lemma dict_elem_of_keys_set d k k' v :
  k' ∈ Dict.keys (Dict.set k v d) <-> k' = k \/ k' ∈ Dict.keys d.
Proof.
  destruct (decide (k ∈ Dict.keys d)) as [Hin|Hnin].
  - rewrite dict_keys_set_present by done. naive_solver.
  - rewrite dict_keys_set_absent by done.
    rewrite elem_of_app, list_elem_of_singleton. naive_solver.
Qed.

Lemma dict_NoDup_set d k v :
  NoDup (Dict.keys d) -> NoDup (Dict.keys (Dict.set k v d)).
Proof.
  intros Hnd. destruct (decide (k ∈ Dict.keys d)) as [Hin|Hnin].
  - by rewrite dict_keys_set_present.
  - rewrite dict_keys_set_absent by done.
    apply NoDup_app. split_and!; [done | | apply NoDup_singleton].
    intros x Hx ->%list_elem_of_singleton. done.
Qed.

Lemma dict_get_pop_ne d k k' :
  k <> k' -> Dict.get k' (Dict.pop k d) = Dict.get k' d.
Proof.
  intros Hne. induction d as [|[k0 v0] d IH]; simpl; [done|].
  destruct (decide (k = k0)) as [->|Hk]; simpl.
  - by rewrite decide_False.
  - destruct (decide (k' = k0)); [done | apply IH].
Qed.

Lemma dict_keys_fold_set (l : list (K * V)) d k :
  k ∈ Dict.keys (fold_left (fun d kv => Dict.set kv.1 kv.2 d) l d)
  <-> k ∈ l.*1 \/ k ∈ Dict.keys d.
Proof.
  revert d. induction l as [|[k' v'] l IH]; intros d; simpl.
  - rewrite elem_of_nil. naive_solver.
  - rewrite IH, dict_elem_of_keys_set, elem_of_cons. naive_solver.
Qed.

Lemma dict_keys_of_list (l : list (K * V)) k :
  k ∈ Dict.keys (Dict.of_list l) <-> k ∈ l.*1.
Proof.
  unfold Dict.of_list. rewrite dict_keys_fold_set.
  unfold Dict.empty, Dict.keys. rewrite fmap_nil, elem_of_nil. naive_solver.
Qed.

End dict_facts.

(** ** The recorder *)

Section recorder_facts.
Import MigrationRecorder.
Implicit Types (c : Connection) (rows : list MigrationRecorder.Migration).

Lemma applied_migrations_table c rows :
  django_migrations c = Some rows ->
  applied_migrations c = (Ok (ledger_dict rows), c).
Proof. destruct c as [a t f]; simpl; intros ->. reflexivity. Qed.

Lemma applied_migrations_no_table c :
  django_migrations c = None ->
  applied_migrations c = (Ok Dict.empty, c).
Proof. destruct c as [a t f]; simpl; intros ->. reflexivity. Qed.

(** [applied_migrations] always answers, and writes nothing. *)
Lemma applied_migrations_reads c :
  applied_migrations c = (Ok (ledger_dict (ledger_rows c)), c).
Proof.
  unfold ledger_rows. destruct (django_migrations c) as [rows|] eqn:E; simpl.
  - by apply applied_migrations_table.
  - by apply applied_migrations_no_table.
Qed.

Lemma record_applied_ok c app name now :
  storage_available c ->
  record_applied app name now c
  = (Ok tt, with_table (Some (ledger_rows c ++ [mkRow app name now])) c).
Proof.
  unfold storage_available, ledger_rows.
  destruct c as [a [rows|] f]; simpl.
  - intros _. reflexivity.
  - intros [[? ?]| ->]; [done|]. reflexivity.
Qed.

Lemma record_unapplied_ok c app name :
  storage_available c ->
  record_unapplied app name c
  = (Ok tt, with_table
              (Some (filter (fun m => matches app name m = false) (ledger_rows c))) c).
Proof.
  unfold storage_available, ledger_rows.
  destruct c as [a [rows|] f]; simpl.
  - intros _. reflexivity.
  - intros [[? ?]| ->]; [done|]. reflexivity.
Qed.

Lemma record_fails c app name now :
  django_migrations c = None -> create_model_fails c = true ->
  record_applied app name now c = (Raise MigrationSchemaMissing, c)
  /\ record_unapplied app name c = (Raise MigrationSchemaMissing, c).
Proof. destruct c as [a t f]; simpl; intros -> ->. done. Qed.


Lemma keys_ledger_dict rows k :
  k ∈ Dict.keys (ledger_dict rows) <-> exists m, m ∈ rows /\ k = (app m, name m).
Proof.
  unfold ledger_dict. rewrite dict_keys_of_list.
  rewrite <- list_fmap_compose. rewrite list_elem_of_fmap. naive_solver.
Qed.
End recorder_facts.

Section recorder_claims.
Import MigrationRecorder.
Implicit Types (c : Connection).

(** C7.  Ledger round trip: starting from a connection whose ledger table
    exists or can be created, [record_applied(app, name)] succeeds and
    [applied_migrations()] then contains the key [(app, name)]; a
    subsequent [record_unapplied(app, name)] succeeds and the key is gone;
    [flush()], after either step, leaves [applied_migrations()] empty. *)
Theorem ledger_round_trip c (app name : string) (now : Z) :
  storage_available c ->
  let c1 := state_after (record_applied app name now) c in
  let c2 := state_after (record_unapplied app name) c1 in
  outcome (record_applied app name now) c = Ok tt
  /\ (exists d, outcome applied_migrations c1 = Ok d
                /\ Dict.mem (app, name) d = true)
  /\ outcome (record_unapplied app name) c1 = Ok tt
  /\ (exists d, outcome applied_migrations c2 = Ok d
                /\ Dict.mem (app, name) d = false)
  /\ outcome flush c1 = Ok tt
  /\ outcome applied_migrations (state_after flush c1) = Ok Dict.empty
  /\ outcome flush c2 = Ok tt
  /\ outcome applied_migrations (state_after flush c2) = Ok Dict.empty.
Proof.
  intros Hc. unfold outcome, state_after.
  rewrite (record_applied_ok _ _ _ _ Hc). cbn [fst snd].
  set (c1 := with_table _ c).
  assert (Hc1 : storage_available c1) by (left; by eexists).
  rewrite (record_unapplied_ok _ _ _ Hc1). cbn [fst snd].
  rewrite !applied_migrations_reads. cbn [fst snd].
  split_and!; try done; try (subst c1; reflexivity).
  - eexists; split; [done|]. apply dict_mem_keys, keys_ledger_dict.
    exists (mkRow app name now). split; [|done].
    apply elem_of_app. right. by apply list_elem_of_singleton.
  - eexists; split; [done|]. apply dict_mem_false.
    rewrite keys_ledger_dict. intros (m & Hm & Hk).
    apply list_elem_of_filter in Hm as [Hm _].
    unfold matches in Hm. apply bool_decide_eq_false in Hm.
    apply Hm. by inversion Hk.
Qed.

Lemma ledger_round_trip_witness :
  let c := mkConnection "default" None false in
  storage_available c
  /\ (exists d, outcome applied_migrations
                  (state_after (record_applied "X" "0001" 7) c) = Ok d
                /\ Dict.mem ("X", "0001") d = true).
Proof.
  intros c.
  assert (Hc : storage_available c) by (right; reflexivity).
  split; [exact Hc|].
  exact (proj1 (proj2 (ledger_round_trip c "X" "0001" 7%Z Hc))).
Defined.




(** C9.  When the ledger table does not exist, [applied_migrations()]
    returns the empty mapping and raises nothing; if moreover the table
    cannot be created, [record_applied] and [record_unapplied] raise
    [MigrationSchemaMissing] and write nothing.  The query never raises,
    whatever the connection. *)
Theorem missing_table_reads_empty c :
  django_migrations c = None ->
  applied_migrations c = (Ok Dict.empty, c)
  /\ (create_model_fails c = true ->
      forall (app name : string) (now : Z),
        record_applied app name now c = (Raise MigrationSchemaMissing, c)
        /\ record_unapplied app name c = (Raise MigrationSchemaMissing, c))
  /\ (forall c', exists d, applied_migrations c' = (Ok d, c')).
Proof.
  intros Hnone. split_and!.
  - by apply applied_migrations_no_table.
  - intros Hfail app name now. by apply record_fails.
  - intros c'. eexists. apply applied_migrations_reads.
Qed.

Lemma missing_table_reads_empty_witness :
  let c := mkConnection "default" None true in
  django_migrations c = None
  /\ applied_migrations c = (Ok Dict.empty, c)
  /\ record_applied "X" "0001" 7 c = (Raise MigrationSchemaMissing, c).
Proof.
  intros c. split; [reflexivity|].
  destruct (missing_table_reads_empty c eq_refl) as (Hread & Hrec & _).
  split; [exact Hread|].
  exact (proj1 (Hrec eq_refl "X" "0001" 7%Z)).
Defined.
End recorder_claims.

(** ** The monad *)

Section monad_facts.
Context {S : Type}.

Lemma bind_ok {A B} (c : M S A) (f : A -> M S B) s a s' :
  c s = (Ok a, s') -> bind c f s = f a s'.
Proof. unfold bind. by intros ->. Qed.


Lemma bind_assoc {A B C} (c : M S A) (f : A -> M S B) (h : B -> M S C) s :
  bind (bind c f) h s = bind c (fun a => bind (f a) h) s.
Proof. unfold bind. destruct (c s) as [[a|e] s']; done. Qed.

Lemma bind_inv_ok {A B} (c : M S A) (f : A -> M S B) s b s' :
  bind c f s = (Ok b, s') ->
  exists a s1, c s = (Ok a, s1) /\ f a s1 = (Ok b, s').
Proof.
  unfold bind. destruct (c s) as [[a|e] s1]; [|done]. intros. by exists a, s1.
Qed.

(** A property of the state kept by every iteration is kept by the loop,
    however it ends. *)
Lemma for_each_keeps {X} (I : S -> Prop) (xs : list X) (body : X -> M S unit) :
  (forall x s, x ∈ xs -> I s -> I (body x s).2) ->
  forall s, I s -> I (for_each xs body s).2.
Proof.
  induction xs as [|x xs IH]; intros Hbody s Hs; simpl; [done|].
  unfold bind. pose proof (Hbody x s (list_elem_of_here _ _) Hs) as H1.
  destruct (body x s) as [[[]|e] s1]; simpl in *; [|done].
  apply IH; [|done]. intros y s' Hy. apply Hbody. by right.
Qed.

(** Iterations that do nothing can be left out of the loop. *)
Lemma for_each_skip {X} `{EqDecision X} (I : S -> Prop) (d : X)
    (xs : list X) (body : X -> M S unit) :
  (forall s, I s -> body d s = (Ok tt, s)) ->
  (forall x s, I s -> I (body x s).2) ->
  forall s, I s ->
    for_each xs body s = for_each (filter (fun x => x <> d) xs) body s.
Proof.
  intros Hd Hkeep. induction xs as [|x xs IH]; intros s Hs; [done|].
  rewrite filter_cons. destruct (decide (x <> d)) as [Hne|Heq]; simpl.
  - unfold bind. pose proof (Hkeep x s Hs) as H1.
    destruct (body x s) as [[[]|e] s1]; simpl in *; [by apply IH | done].
  - apply dec_stable in Heq as ->. unfold bind. rewrite (Hd s Hs). by apply IH.
Qed.

End monad_facts.

(** ** Wiring *)

Section wiring_facts.
Implicit Types (s : MigrationLoader) (g : MigrationGraph) (k d : key).

Lemma edges_only_refl s : edges_only s s.
Proof.
  split; try done. destruct (graph s); constructor. done.
Qed.

Lemma edges_only_trans s1 s2 s3 :
  edges_only s1 s2 -> edges_only s2 s3 -> edges_only s1 s3.
Proof.
  intros [] []. split; try congruence.
  destruct (graph s1), (graph s2), (graph s3);
    repeat match goal with H : option_Forall2 _ _ _ |- _ => inversion H; clear H end;
    constructor; subst; unfold same_nodes in *; congruence.
Qed.

Lemma not_a_node_edges_only d s s' :
  not_a_node d s -> edges_only s s' -> not_a_node d s'.
Proof.
  intros (g & Hg & Hd) [_ _ _ _ _ _ _ _ Hgraph]. rewrite Hg in Hgraph.
  inversion Hgraph as [g1 g' Hsame|]; subst. exists g'. split; [done|].
  unfold Graph.contains in *. by rewrite <- Hsame.
Qed.

Lemma check_key_state k app s : (check_key k app s).2 = s.
Proof.
  unfold check_key, bind, attr, ret, raise, gets.
  repeat (case_match; simpl; try done; simplify_eq/=); reflexivity.
Qed.

Lemma add_dependency_run migration child parent s g :
  graph s = Some g ->
  add_dependency migration child parent s
  = (Ok tt, set_graph (mkGraph (nodes g) (edges g ++ [mkEdge parent child migration])) s).
Proof.
  intros Hg. unfold add_dependency, update_graph, bind, attr, lift, modify.
  by rewrite Hg.
Qed.

Lemma add_dependency_edges_only migration child parent s :
  edges_only s (add_dependency migration child parent s).2.
Proof.
  destruct (graph s) as [g|] eqn:Hg.
  - rewrite (add_dependency_run _ _ _ _ _ Hg). simpl.
    split; try done. rewrite Hg. simpl. by constructor.
  - unfold add_dependency, update_graph, bind, attr. rewrite Hg. simpl.
    apply edges_only_refl.
Qed.

Lemma internal_dependency_edges_only k migration parent s :
  edges_only s (internal_dependency k migration parent s).2.
Proof.
  unfold internal_dependency. case_match.
  - apply add_dependency_edges_only.
  - apply edges_only_refl.
Qed.

Lemma external_dependency_edges_only k migration parent s :
  edges_only s (external_dependency k migration parent s).2.
Proof.
  unfold external_dependency. case_match; [apply edges_only_refl|].
  unfold bind. pose proof (check_key_state parent k.1 s) as Hs.
  destruct (check_key parent k.1 s) as [[[parent'|]|e] s1]; simpl in Hs; subst s1.
  - apply add_dependency_edges_only.
  - apply edges_only_refl.
  - apply edges_only_refl.
Qed.

Lemma run_before_dependency_edges_only k migration child s :
  edges_only s (run_before_dependency k migration child s).2.
Proof.
  unfold run_before_dependency, bind.
  pose proof (check_key_state child k.1 s) as Hs.
  destruct (check_key child k.1 s) as [[[child'|]|e] s1]; simpl in Hs; subst s1.
  - apply add_dependency_edges_only.
  - apply edges_only_refl.
  - apply edges_only_refl.
Qed.

(** Sentinel resolution drops a sentinel of the current app that is not a
    graph node. *)
Lemma check_key_own_app d app s :
  sentinel d -> not_a_node d s -> d.1 = app ->
  check_key d app s = (Ok None, s).
Proof.
  intros Hsent (g & Hg & Hd) Happ. unfold check_key.
  rewrite bool_decide_eq_false_2 by (unfold sentinel in Hsent; tauto).
  unfold bind, attr. rewrite Hg, Hd.
  by rewrite bool_decide_eq_true_2.
Qed.
End wiring_facts.

Section sentinel_claims.
Implicit Types (s : MigrationLoader) (k d : key) (migration : Migration).

Lemma dependency_steps_keep_not_a_node d k migration :
  (forall x s, not_a_node d s -> not_a_node d (internal_dependency k migration x s).2)
  /\ (forall x s, not_a_node d s -> not_a_node d (external_dependency k migration x s).2)
  /\ (forall x s, not_a_node d s -> not_a_node d (run_before_dependency k migration x s).2).
Proof.
  split_and!; intros x s Hs; eapply not_a_node_edges_only; try exact Hs.
  - apply internal_dependency_edges_only.
  - apply external_dependency_edges_only.
  - apply run_before_dependency_edges_only.
Qed.

(** Leaving a dropped key [d] out of both loops of
    [add_external_dependencies]. *)
Lemma add_external_dependencies_skip d k migration s :
  not_a_node d s ->
  (forall s', not_a_node d s' -> external_dependency k migration d s' = (Ok tt, s')) ->
  (forall s', not_a_node d s' -> run_before_dependency k migration d s' = (Ok tt, s')) ->
  add_external_dependencies k migration s
  = (for_each (filter (fun p => p <> d) (dependencies migration))
       (external_dependency k migration) ;;
     for_each (filter (fun c => c <> d) (run_before migration))
       (run_before_dependency k migration)) s.
Proof.
  intros Hs Hext Hrun.
  destruct (dependency_steps_keep_not_a_node d k migration) as (_ & Hke & Hkr).
  unfold add_external_dependencies, bind.
  rewrite (for_each_skip (not_a_node d) d _ _ Hext Hke s Hs).
  pose proof (for_each_keeps (not_a_node d)
    (filter (fun p => p <> d) (dependencies migration))
    (external_dependency k migration) (fun x s' _ => Hke x s') s Hs) as Hs1.
  destruct (for_each _ (external_dependency k migration) s) as [[[]|e] s1];
    simpl in Hs1; [|done].
  by apply (for_each_skip (not_a_node d)).
Qed.

(** C6.  For a unit wired under the key [k], a dependency on
    [(k.1, "__first__")] that is not a graph node is a no-op wherever it
    is met: in [add_internal_dependencies], in the dependencies loop of
    [add_external_dependencies] and in its [run_before] loop, the
    iteration succeeds and leaves the loader (hence the graph and its
    edges) as it was, and both functions behave as if the key were not
    listed. *)
Theorem own_first_is_dropped s k migration :
  not_a_node (k.1, "__first__") s ->
  let d := (k.1, "__first__") in
  internal_dependency k migration d s = (Ok tt, s)
  /\ external_dependency k migration d s = (Ok tt, s)
  /\ run_before_dependency k migration d s = (Ok tt, s)
  /\ add_internal_dependencies k migration s
     = for_each (filter (fun p => p <> d) (dependencies migration))
         (internal_dependency k migration) s
  /\ add_external_dependencies k migration s
     = (for_each (filter (fun p => p <> d) (dependencies migration))
          (external_dependency k migration) ;;
        for_each (filter (fun c => c <> d) (run_before migration))
          (run_before_dependency k migration)) s.
Proof.
  intros Hs d.
  assert (Hint : forall s', internal_dependency k migration d s' = (Ok tt, s')).
  { intros s'. unfold internal_dependency.
    rewrite andb_false_intro2; [done|].
    apply bool_decide_eq_false. unfold d. simpl. tauto. }
  assert (Hext : forall s', external_dependency k migration d s' = (Ok tt, s')).
  { intros s'. unfold external_dependency, d. simpl.
    by rewrite bool_decide_eq_true_2 by done. }
  assert (Hrun : forall s', not_a_node d s' ->
                            run_before_dependency k migration d s' = (Ok tt, s')).
  { intros s' Hs'. unfold run_before_dependency, bind.
    rewrite (check_key_own_app d k.1 s'); [done | by left | done | done]. }
  destruct (dependency_steps_keep_not_a_node d k migration) as (Hki & _ & _).
  split_and!; [done | done | by apply Hrun | |].
  - unfold add_internal_dependencies.
    by apply (for_each_skip (not_a_node d) d _ _ (fun s' _ => Hint s') Hki).
  - apply add_external_dependencies_skip; [done | by intros; apply Hext | done].
Qed.


(** Internal wiring makes an exception of "__first__" only: a dependency
    on the own app's "__latest__" gets an edge there. *)
Remark own_latest_internal_edge s g k migration :
  graph s = Some g ->
  internal_dependency k migration (k.1, "__latest__") s
  = (Ok tt, set_graph (mkGraph (nodes g)
              (edges g ++ [mkEdge (k.1, "__latest__") k migration])) s).
Proof.
  intros Hg. unfold internal_dependency.
  rewrite !bool_decide_eq_true_2 by done.
  by apply add_dependency_run.
Qed.
End sentinel_claims.

(** ** History consistency *)

Section history_facts.
Context {S : Type}.

(** A loop of checks, none of which writes: either every check passes,
    or the loop stops at a first failing check with its exception. *)
Lemma for_each_checks {X} (xs : list X) (body : X -> M S unit) s :
  (forall x, x ∈ xs -> (body x s).2 = s) ->
  (for_each xs body s = (Ok tt, s)
   /\ forall x, x ∈ xs -> body x s = (Ok tt, s))
  \/ (exists x e, x ∈ xs /\ body x s = (Raise e, s)
                  /\ for_each xs body s = (Raise e, s)).
Proof.
  induction xs as [|x xs IH]; intros Hs; simpl.
  - left. split; [done|]. by intros x ?%elem_of_nil.
  - unfold bind. pose proof (Hs x (list_elem_of_here _ _)) as Hx.
    destruct (body x s) as [[[]|e] s1] eqn:Ex; simpl in Hx; subst s1.
    + destruct IH as [[Hok Hall]|(y & e & Hy & Hbody & Hloop)].
      * intros y Hy. apply Hs. by right.
      * left. split; [done|]. intros y [->|Hy]%elem_of_cons; [done | by apply Hall].
      * right. exists y, e. split_and!; [by right | done | done].
    + right. exists x, e. split_and!; [by left | done | done].
Qed.
End history_facts.

Section history_claims.
Implicit Types (s : MigrationLoader) (g : MigrationGraph)
  (conn : MigrationRecorder.Connection).

Lemma check_parent_run {V} conn (applied : Dict.t key V) migration parent s squashes :
  replacements s = Some squashes ->
  check_parent conn applied migration parent s
  = (if Dict.mem parent applied
        || squashed_with_replaces_applied squashes applied parent
     then Ok tt
     else Raise (InconsistentMigrationHistory
                   (history_message migration parent (MigrationRecorder.alias conn))),
     s).
Proof.
  intros Hsq. unfold check_parent.
  destruct (Dict.mem parent applied); [done|].
  unfold bind, attr, ret, raise. rewrite Hsq. simpl.
  by destruct (squashed_with_replaces_applied squashes applied parent).
Qed.

(** C2 (amended).  On a loader that has a graph and its replacements,
    [check_consistent_history] raises if and only if some migration
    recorded as applied is a graph node with a parent that is not
    recorded as applied, unless that parent is itself a squash migration
    (a key of the loader's replacements) whose whole [replaces] list is
    recorded as applied.  The exception is [InconsistentMigrationHistory]
    and its message names such a migration, such a parent and the alias
    of the connection.  Applied migrations that are not graph nodes are
    passed over, and the check writes nothing. *)
Theorem check_consistent_history_spec conn s g squashes :
  graph s = Some g ->
  replacements s = Some squashes ->
  let applied := ledger_dict (ledger_rows conn) in
  ((exists e, outcome (check_consistent_history conn) s = Raise e)
   <-> exists migration parent,
         unapplied_dependency g squashes applied migration parent)
  /\ (forall e, outcome (check_consistent_history conn) s = Raise e ->
        exists migration parent,
          unapplied_dependency g squashes applied migration parent
          /\ e = InconsistentMigrationHistory
                   (history_message migration parent
                      (MigrationRecorder.alias conn)))
  /\ state_after (check_consistent_history conn) s = s.
Proof.
  intros Hg Hsq applied.
  unfold outcome, state_after, check_consistent_history, bind, ask_recorder, lift.
  rewrite applied_migrations_reads. cbn [fst snd]. fold applied.
  set (inner := fun migration : key =>
    for_each (Graph.parents g migration) (check_parent conn applied migration)).
  set (body := fun migration : key => _ : M MigrationLoader unit).
  assert (Hbody : forall migration, body migration s
            = if negb (Graph.contains migration g) then (Ok tt, s)
              else inner migration s).
  { intros migration. unfold body, bind, attr. rewrite Hg. by case_match. }
  assert (Hinner : forall migration,
    (inner migration s = (Ok tt, s)
     /\ forall p, p ∈ Graph.parents g migration ->
          Dict.mem p applied || squashed_with_replaces_applied squashes applied p = true)
    \/ (exists p, p ∈ Graph.parents g migration
          /\ Dict.mem p applied = false
          /\ squashed_with_replaces_applied squashes applied p = false
          /\ inner migration s
             = (Raise (InconsistentMigrationHistory
                  (history_message migration p (MigrationRecorder.alias conn))), s))).
  { intros migration. unfold inner.
    destruct (for_each_checks (Graph.parents g migration)
                (check_parent conn applied migration) s)
      as [[Hok Hall]|(p & e & Hp & Hpe & Hloop)].
    - intros p _. by rewrite (check_parent_run _ _ _ _ _ _ Hsq).
    - left. split; [done|]. intros p Hp. specialize (Hall p Hp).
      rewrite (check_parent_run _ _ _ _ _ _ Hsq) in Hall. by case_match.
    - right. exists p. rewrite (check_parent_run _ _ _ _ _ _ Hsq) in Hpe.
      rewrite Hloop.
      destruct (Dict.mem p applied); [done|].
      destruct (squashed_with_replaces_applied squashes applied p); [done|].
      simpl in Hpe. by simplify_eq. }
  assert (Hstate : forall migration, (body migration s).2 = s).
  { intros migration. rewrite Hbody. case_match; [done|].
    destruct (Hinner migration) as [[-> _]|(p & _ & _ & _ & ->)]; done. }
  destruct (for_each_checks (Dict.keys applied) body s (fun m _ => Hstate m))
    as [[Hok Hall]|(m & e & Hm & Hme & Hloop)].
  - rewrite Hok. cbn [fst snd]. split_and!; [|done|done].
    split; [by intros [e ?]|].
    intros (m & p & Hm & Hnode & Hp & Hun & Hex). exfalso.
    specialize (Hall m Hm). rewrite Hbody, Hnode in Hall. simpl in Hall.
    destruct (Hinner m) as [[_ Hpass]|(q & _ & _ & _ & Hraise)]; [|congruence].
    specialize (Hpass p Hp). by rewrite Hun, Hex in Hpass.
  - rewrite Hloop. cbn [fst snd]. rewrite Hbody in Hme.
    destruct (Graph.contains m g) eqn:Hnode; simpl in Hme; [|done].
    destruct (Hinner m) as [[Hok _]|(p & Hp & Hun & Hex & Hraise)]; [congruence|].
    assert (Hviol : unapplied_dependency g squashes applied m p) by done.
    assert (He : e = InconsistentMigrationHistory
              (history_message m p (MigrationRecorder.alias conn))) by congruence.
    split_and!; [|by intros ? [= <-]; eauto|done].
    split; [by eauto | by eauto].
Qed.
End history_claims.

Section history_examples.
Import Sample.

Lemma check_consistent_history_spec_witness :
  let s := set_replacements Dict.empty (set_graph Graph.empty (loader [])) in
  graph s = Some Graph.empty
  /\ replacements s = Some Dict.empty
  /\ state_after (check_consistent_history (ledger [("X", "0001")])) s = s.
Proof.
  intros s. split; [reflexivity|]. split; [reflexivity|].
  exact (proj2 (proj2 (check_consistent_history_spec
           (ledger [("X", "0001")]) s Graph.empty Dict.empty eq_refl eq_refl))).
Defined.

(** C2 (as stated): the exemption would be for a parent that is a
    replacement target of a squash unit whose [replaces] are all applied.
    After a build in which 0001_squashed stands in for the applied 0001,
    the applied 0002 has the unapplied parent 0001_squashed, which is no
    replacement target; the check passes all the same, because the parent
    is the squash unit itself. *)
Lemma history_exemption_is_for_the_squash :
  let conn := ledger [("X", "0001"); ("X", "0002")] in
  let s := state_after (build_graph squashed_app)
             (loader [("X", "0001"); ("X", "0002")]) in
  outcome (check_consistent_history conn) s = Ok tt
  /\ exists g squashes,
       graph s = Some g /\ replacements s = Some squashes
       /\ unapplied_dependency_as_worded g squashes
            (ledger_dict (ledger_rows conn)) ("X", "0002") ("X", "0001_squashed").
Proof.
  intros conn s. split; [by vm_compute|].
  eexists _, _. split; [by vm_compute|]. split; [by vm_compute|].
  split_and!.
  - apply (bool_decide_unpack _). by vm_compute.
  - by vm_compute.
  - apply (bool_decide_unpack _). by vm_compute.
  - by vm_compute.
  - intros (squash_key & squash & Hget & Hin & _). simpl in Hget.
    case_decide; [|done]. simplify_eq/=.
    apply list_elem_of_singleton in Hin. done.
Qed.
End history_examples.

(** ** Diagnosis of a missing node *)

Section diagnosis_facts.
Implicit Types (s : MigrationLoader) (g : MigrationGraph)
  (squashes : Dict.t key Migration) (d : Dict.t key (list key)).

Lemma build_graph_reconciled apps s :
  build_graph apps s
  = (reconciled apps ;; ensure_consistent ;; ensure_not_cyclic) s.
Proof.
  unfold build_graph, reconciled. rewrite !bind_assoc.
  unfold bind.
  repeat match goal with
         | |- context [match ?c ?s with _ => _ end] =>
             destruct (c s) as [[[]|?] ?]
         end; reflexivity.
Qed.

Lemma reconciled_wired apps s :
  reconciled apps s = (wired apps ;; carry_out_replacements) s.
Proof.
  unfold reconciled, wired. rewrite !bind_assoc.
  unfold bind.
  repeat match goal with
         | |- context [match ?c ?s with _ => _ end] =>
             destruct (c s) as [[[]|?] ?]
         end; reflexivity.
Qed.

Lemma reverse_replacements_pairs squashes :
  reverse_replacements squashes
  = fold_left (fun d '(k, replaced) => setdefault_add replaced k d)
      (replaced_pairs squashes) Dict.empty.
Proof.
  unfold reverse_replacements, replaced_pairs.
  generalize (Dict.empty : Dict.t key (list key)).
  induction squashes as [|[k migration] squashes IH]; intros d; [done|].
  cbn [mbind list_bind fold_left]. rewrite fold_left_app, <- IH. f_equal.
  generalize (replaces migration). clear. intros l. revert d.
  induction l as [|r l IH]; intros d; [done|]. simpl. apply IH.
Qed.

Lemma names_target_pairs squashes node k :
  names_target squashes node k <-> (k, node) ∈ replaced_pairs squashes.
Proof.
  unfold names_target, replaced_pairs. rewrite list_elem_of_bind. split.
  - intros (m & Hin & Hnode). exists (k, m). split; [|done].
    apply list_elem_of_fmap. by exists node.
  - intros ([k' m] & Hin & Hk). apply list_elem_of_fmap in Hin as (r & [= -> ->] & Hr).
    by exists m.
Qed.

Lemma tracks_step pairs d k replaced :
  tracks pairs d -> tracks (pairs ++ [(k, replaced)]) (setdefault_add replaced k d).
Proof.
  intros Hd node. unfold setdefault_add. specialize (Hd node) as Hnode.
  destruct (decide (replaced = node)) as [->|Hne].
  - rewrite dict_get_set_eq.
    destruct (Dict.get node d) as [c|]; cbn [default from_option].
    + destruct Hnode as [Hc Hin]. case_decide as Hk.
      * split; [done|]. intros k'. rewrite elem_of_app, list_elem_of_singleton, Hin.
        split; [by left|]. intros [?|[= ->]]; [done|]. by apply Hin.
      * split; [by destruct c|]. intros k'.
        rewrite !elem_of_app, !list_elem_of_singleton, Hin. naive_solver.
    + rewrite decide_False by (by intros ?%elem_of_nil).
      split; [done|]. intros k'. simpl.
      rewrite elem_of_app, !list_elem_of_singleton.
      split; [intros ->; by right|]. intros [?|[= ->]]; [|done]. by destruct (Hnode k').
  - rewrite dict_get_set_ne by done.
    destruct (Dict.get node d) as [c|].
    + destruct Hnode as [Hc Hin]. split; [done|]. intros k'.
      rewrite Hin, elem_of_app, list_elem_of_singleton. naive_solver.
    + intros k'. rewrite elem_of_app, list_elem_of_singleton. naive_solver.
Qed.

Lemma tracks_fold pairs rest d :
  tracks pairs d ->
  tracks (pairs ++ rest)
    (fold_left (fun d '(k, replaced) => setdefault_add replaced k d) rest d).
Proof.
  revert pairs d. induction rest as [|[k r] rest IH]; intros pairs d Hd; simpl.
  - by rewrite app_nil_r.
  - rewrite (cons_middle _ pairs rest), app_assoc. apply IH. by apply tracks_step.
Qed.

Lemma reverse_replacements_spec squashes node :
  match Dict.get node (reverse_replacements squashes) with
  | Some candidates =>
      candidates <> []
      /\ forall k, k ∈ candidates <-> names_target squashes node k
  | None => forall k, ~ names_target squashes node k
  end.
Proof.
  rewrite reverse_replacements_pairs.
  pose proof (tracks_fold [] (replaced_pairs squashes) Dict.empty) as H.
  simpl in H. specialize (H (fun _ _ => not_elem_of_nil _) node).
  destruct (Dict.get node _) as [c|].
  - destruct H as [Hc Hin]. split; [done|]. intros k.
    by rewrite Hin, names_target_pairs.
  - intros k. rewrite names_target_pairs. apply H.
Qed.
End diagnosis_facts.

Section diagnosis_claims.
Implicit Types (s : MigrationLoader) (g : MigrationGraph)
  (squashes : Dict.t key Migration).

Lemma diagnose_run s g squashes message node origin :
  graph s = Some g -> replacements s = Some squashes ->
  diagnose (NodeNotFoundError message node origin) s
  = (Raise
       match Dict.get node (reverse_replacements squashes) with
       | Some candidates =>
           if existsb (fun candidate => Graph.contains candidate g) candidates
           then NodeNotFoundError message node origin
           else NodeNotFoundError (MsgTriedReplace origin node candidates) node None
       | None => NodeNotFoundError message node origin
       end, s).
Proof.
  intros Hg Hsq. unfold diagnose, bind, attr, raise. rewrite Hsq.
  destruct (Dict.get node _) as [c|]; [|done]. rewrite Hg.
  by destruct (existsb _ c).
Qed.

(** C3 (amended).  When [validate_consistency] fails on the graph that
    the replacement phase of [build_graph] leaves, with a
    [NodeNotFoundError] for [node], then [build_graph] raises the richer
    error, which lists as tries exactly the squash migrations that name
    [node] in their [replaces], if and only if there is such a squash
    migration and none of them is a node of the graph; otherwise it
    raises the original error unchanged.  Either way the loader is left
    as the replacement phase left it. *)
Theorem build_graph_diagnosis apps s0 s g squashes message node origin :
  reconciled apps s0 = (Ok tt, s) ->
  graph s = Some g ->
  replacements s = Some squashes ->
  Graph.validate_consistency g = Raise (NodeNotFoundError message node origin) ->
  let rejected :=
    (exists k, names_target squashes node k)
    /\ (forall k, names_target squashes node k -> Graph.contains k g = false) in
  state_after (build_graph apps) s0 = s
  /\ (rejected ->
      exists tries,
        outcome (build_graph apps) s0
        = Raise (NodeNotFoundError (MsgTriedReplace origin node tries) node None)
        /\ forall k, k ∈ tries <-> names_target squashes node k)
  /\ (~ rejected ->
      outcome (build_graph apps) s0
      = Raise (NodeNotFoundError message node origin)).
Proof.
  intros Hrec Hg Hsq Hval rejected.
  assert (Hbuild : build_graph apps s0
                   = diagnose (NodeNotFoundError message node origin) s).
  { rewrite build_graph_reconciled. unfold bind at 1. rewrite Hrec.
    unfold bind, ensure_consistent, try_except, bind, attr, lift.
    rewrite Hg, Hval. by rewrite (diagnose_run _ _ _ _ _ _ Hg Hsq). }
  unfold outcome, state_after. rewrite Hbuild, (diagnose_run _ _ _ _ _ _ Hg Hsq).
  cbn [fst snd]. split; [done|].
  pose proof (reverse_replacements_spec squashes node) as Hrev.
  destruct (Dict.get node (reverse_replacements squashes)) as [c|].
  - destruct Hrev as [Hc Hin].
    destruct (existsb (fun candidate => Graph.contains candidate g) c) eqn:Hex.
    + split; [|done]. intros [_ Hnone]. exfalso.
      apply existsb_exists in Hex as (k & Hk & Hcont).
      apply list_elem_of_In, Hin, Hnone in Hk. congruence.
    + split; [intros _; by exists c|]. intros Hnot. exfalso. apply Hnot. split.
      * destruct c as [|k c]; [done|]. exists k. apply Hin. by left.
      * intros k Hk%Hin. destruct (Graph.contains k g) eqn:Hcont; [|done].
        assert (existsb (fun candidate => Graph.contains candidate g) c = true);
          [|congruence].
        apply existsb_exists. exists k. by rewrite <- list_elem_of_In.
  - split; [|done]. intros [[k Hk] _]. by destruct (Hrev k).
Qed.
End diagnosis_claims.

Section diagnosis_examples.
Import Sample.

Lemma build_graph_diagnosis_witness :
  let s0 := loader [("X", "a")] in
  let s := state_after (reconciled deleted_target) s0 in
  reconciled deleted_target s0 = (Ok tt, s)
  /\ state_after (build_graph deleted_target) s0 = s.
Proof.
  intros s0 s.
  assert (Hrec : reconciled deleted_target s0 = (Ok tt, s)) by (by vm_compute).
  split; [exact Hrec|].
  refine (proj1 (build_graph_diagnosis deleted_target s0 s
            (default Graph.empty (graph s)) (default Dict.empty (replacements s))
            (MsgNonexistent (mkMigration "c" "X" [("X", "b")] [] []) ("X", "b"))
            ("X", "b") (Some (mkMigration "c" "X" [("X", "b")] [] []))
            Hrec _ _ _)); by vm_compute.
Defined.

(** C3 (as stated): the richer error would be raised exactly when a
    squash unit naming the missing node exists in the graph.  Here [R]
    squashes [a] and [b], only [a] is applied and [b] is gone from disk
    while [c] depends on it: the richer error is raised, and [R], the
    only squash unit naming [b], is not in the graph (it was removed as
    partially applied). *)
Lemma richer_error_without_squash_in_graph :
  let s0 := loader [("X", "a")] in
  let s := state_after (build_graph deleted_target) s0 in
  (exists origin tries,
     outcome (build_graph deleted_target) s0
     = Raise (NodeNotFoundError (MsgTriedReplace origin ("X", "b") tries)
                ("X", "b") None))
  /\ exists g squashes,
       graph s = Some g /\ replacements s = Some squashes
       /\ ~ exists k, names_target squashes ("X", "b") k
                      /\ Graph.contains k g = true.
Proof.
  intros s0 s. split; [eexists _, _; by vm_compute|].
  eexists _, _. split; [by vm_compute|]. split; [by vm_compute|].
  intros (k & (m & Hin & _) & Hcont).
  apply list_elem_of_singleton in Hin. injection Hin as -> ->.
  by vm_compute in Hcont.
Qed.
End diagnosis_examples.

Section sentinel_examples.
Import Sample.

Lemma own_first_is_dropped_witness :
  let s := set_graph Graph.empty (loader []) in
  let k := ("X", "0002") in
  let migration :=
    mkMigration "0002" "X" [("X", "__first__")] [("X", "__first__")] [] in
  not_a_node (k.1, "__first__") s
  /\ add_internal_dependencies k migration s = (Ok tt, s)
  /\ add_external_dependencies k migration s = (Ok tt, s).
Proof.
  intros s k migration.
  assert (Hs : not_a_node (k.1, "__first__") s).
  { exists Graph.empty. split; reflexivity. }
  split; [exact Hs|].
  destruct (own_first_is_dropped s k migration Hs) as (_ & _ & _ & Hint & Hext).
  split; [rewrite Hint | rewrite Hext]; reflexivity.
Defined.

End sentinel_examples.

(** ** Frames and determinism *)

Section respects_facts.
Context {S : Type} (R : S -> S -> Prop).





End respects_facts.

Section keeps_facts.
Context {S B : Type} (f : S -> B).

Lemma keeps_ret {A} (a : A) : keeps f (ret a).
Proof. by intros s. Qed.

Lemma keeps_raise {A} e : keeps f (raise (A := A) e).
Proof. by intros s. Qed.

Lemma keeps_lift {A} (r : result A) : keeps f (lift r).
Proof. by intros s. Qed.

Lemma keeps_gets {A} (h : S -> A) : keeps f (gets h).
Proof. by intros s. Qed.

Lemma keeps_attr {A} n (h : S -> option A) : keeps f (attr n h).
Proof. intros s. unfold attr. by destruct (h s). Qed.

Lemma keeps_bind {A C} (c : M S A) (h : A -> M S C) :
  keeps f c -> (forall a, keeps f (h a)) -> keeps f (bind c h).
Proof.
  intros Hc Hh s. unfold bind. specialize (Hc s).
  destruct (c s) as [[a|e] t]; simpl in *; [|done].
  by rewrite Hh.
Qed.

Lemma keeps_for_each {X} (xs : list X) (body : X -> M S unit) :
  (forall x, keeps f (body x)) -> keeps f (for_each xs body).
Proof.
  intros Hbody. induction xs as [|x xs IH]; simpl.
  - apply keeps_ret.
  - apply keeps_bind; [apply Hbody | by intros _].
Qed.

End keeps_facts.

(** ** Discovery *)

Section load_disk_facts.
Implicit Types (s : MigrationLoader).







Lemma update_disk_keeps f : keeps beyond_discovery (update_disk f).
Proof.
  intros s. unfold update_disk, bind, attr, modify.
  by destruct (disk_migrations s).
Qed.

Lemma add_unmigrated_keeps {B} (f : MigrationLoader -> B) app :
  (forall v s, f (set_unmigrated_apps v s) = f s) -> keeps f (add_unmigrated app).
Proof.
  intros Hf s. unfold add_unmigrated, bind, attr, modify.
  destruct (unmigrated_apps s); simpl; [apply Hf | done].
Qed.

Lemma add_migrated_keeps {B} (f : MigrationLoader -> B) app :
  (forall v s, f (set_migrated_apps v s) = f s) -> keeps f (add_migrated app).
Proof.
  intros Hf s. unfold add_migrated, bind, attr, modify.
  destruct (migrated_apps s); simpl; [apply Hf | done].
Qed.

Lemma load_app_keeps app_config : keeps beyond_discovery (load_app app_config).
Proof.
  unfold load_app. repeat case_match; try (by apply add_unmigrated_keeps).
  - apply keeps_bind; [apply keeps_gets|]. intros ignore.
    case_match; [by apply add_unmigrated_keeps | apply keeps_raise].
  - apply keeps_bind; [by apply add_migrated_keeps|]. intros _.
    apply keeps_bind; [apply keeps_lift|]. intros names.
    apply keeps_for_each. intros x. unfold load_migration.
    case_match; [apply keeps_raise | apply keeps_raise | apply update_disk_keeps].
Qed.

(** Discovery assigns [disk_migrations], [unmigrated_apps] and
    [migrated_apps] and nothing else. *)
Lemma load_disk_keeps apps : keeps beyond_discovery (load_disk apps).
Proof.
  intros s. unfold load_disk, bind, modify. simpl.
  by rewrite (keeps_for_each beyond_discovery apps load_app load_app_keeps).
Qed.

Lemma load_app_disk_is_dict app_config s :
  is_Some (disk_migrations s) /\ disk_is_dict s ->
  is_Some (disk_migrations (load_app app_config s).2)
  /\ disk_is_dict (load_app app_config s).2.
Proof.
  set (I := fun s => is_Some (disk_migrations s) /\ disk_is_dict s).
  assert (Hun : forall app s, I s -> I (add_unmigrated app s).2).
  { intros app s' Hs'. unfold add_unmigrated, bind, attr, modify.
    by destruct (unmigrated_apps s'). }
  assert (Hmi : forall app s, I s -> I (add_migrated app s).2).
  { intros app s' Hs'. unfold add_migrated, bind, attr, modify.
    by destruct (migrated_apps s'). }
  fold (I s) (I (load_app app_config s).2). intros Hs.
  unfold load_app. repeat case_match; try (by apply Hun).
  - unfold bind, gets. case_match; [by apply Hun | done].
  - unfold bind at 1. specialize (Hmi (label app_config) s Hs).
    destruct (add_migrated (label app_config) s) as [[[]|e] s1]; simpl in Hmi; [|done].
    unfold bind, lift. case_match; [|done].
    apply (for_each_keeps I); [|done]. intros x s' _ [[disk Hdisk] Hnd].
    unfold load_migration. case_match; try done.
    unfold update_disk, bind, attr, modify. rewrite Hdisk. simpl.
    unfold I, disk_is_dict in *. simpl. rewrite Hdisk in Hnd.
    split; [by eexists | by apply dict_NoDup_set].
Qed.

(** Whatever its outcome, discovery leaves a dictionary of disk
    migrations. *)
Lemma load_disk_is_dict apps s :
  is_Some (disk_migrations (load_disk apps s).2)
  /\ disk_is_dict (load_disk apps s).2.
Proof.
  unfold load_disk, bind, modify. simpl.
  apply (for_each_keeps (fun s => is_Some (disk_migrations s) /\ disk_is_dict s)).
  - intros x s' _. apply load_app_disk_is_dict.
  - split; [by eexists | apply NoDup_nil_2].
Qed.
End load_disk_facts.

(** ** The phases of [build_graph] *)

Section phase_facts.
Implicit Types (s : MigrationLoader) (g : MigrationGraph)
  (disk squashes : Dict.t key Migration).

Lemma load_applied_run s :
  load_applied s = (Ok tt, set_applied_migrations (ledger_snapshot s) s).
Proof.
  unfold load_applied, ledger_snapshot, bind, gets, modify, ask_recorder, lift.
  destruct (connection s) as [c|]; [|done].
  by rewrite applied_migrations_reads.
Qed.

Lemma dict_set_absent {V} (d : Dict.t key V) k v :
  k ∉ Dict.keys d -> Dict.set k v d = d ++ [(k, v)].
Proof.
  induction d as [|[k' v'] d IH]; [done|].
  rewrite dict_keys_cons. intros [Hne Hnin]%not_elem_of_cons. simpl.
  rewrite decide_False by done. by rewrite IH.
Qed.

Lemma lookup_insert_nodes n disk k :
  is_Some (insert_nodes n disk !! k) <-> k ∈ Dict.keys disk \/ is_Some (n !! k).
Proof.
  revert n. induction disk as [|[k' m] disk IH]; intros n.
  - unfold Dict.keys. rewrite fmap_nil, elem_of_nil. naive_solver.
  - rewrite dict_keys_cons, elem_of_cons. cbn [insert_nodes foldl].
    fold (insert_nodes (<[k' := m]> n) disk). rewrite IH.
    destruct (decide (k = k')) as [->|Hne].
    + rewrite lookup_insert_eq. naive_solver.
    + rewrite lookup_insert_ne by done. naive_solver.
Qed.

Lemma squashes_of_cons k m disk :
  squashes_of ((k, m) :: disk)
  = if decide (replaces m <> []) then (k, m) :: squashes_of disk
    else squashes_of disk.
Proof. reflexivity. Qed.

Lemma elem_of_squashes_of disk k m :
  (k, m) ∈ squashes_of disk <-> (k, m) ∈ disk /\ replaces m <> [].
Proof.
  induction disk as [|[k' m'] disk IH].
  - split; [by intros ?%elem_of_nil | by intros [?%elem_of_nil _]].
  - rewrite squashes_of_cons. case_decide as Hrep.
    + rewrite !elem_of_cons, IH. naive_solver.
    + rewrite elem_of_cons, IH. naive_solver.
Qed.

Lemma add_nodes_loop l s g squashes :
  graph s = Some g -> replacements s = Some squashes ->
  NoDup (Dict.keys l) ->
  (forall k, k ∈ Dict.keys l -> nodes g !! k = None /\ k ∉ Dict.keys squashes) ->
  for_each l (fun '(k, migration) =>
    update_graph (Graph.add_node k migration) ;;
    if bool_decide (replaces migration <> [])
    then update_replacements (Dict.set k migration)
    else ret tt) s
  = (Ok tt, set_replacements (squashes ++ squashes_of l)
              (set_graph (mkGraph (insert_nodes (nodes g) l) (edges g)) s)).
Proof.
  revert s g squashes.
  induction l as [|[k m] l IH]; intros s g squashes Hg Hsq Hnd Hfresh.
  - cbn [for_each insert_nodes foldl]. unfold ret.
    replace (squashes ++ squashes_of []) with squashes
      by (symmetry; apply app_nil_r).
    destruct s, g; simpl in *. by subst.
  - rewrite dict_keys_cons in Hnd. apply NoDup_cons in Hnd as [Hk Hnd].
    destruct (Hfresh k) as [Hnone Hnsq]; [rewrite dict_keys_cons; by left|].
    cbn [for_each]. unfold bind at 1.
    set (g1 := mkGraph (<[k := m]> (nodes g)) (edges g)).
    assert (Hstep1 : update_graph (Graph.add_node k m) s = (Ok tt, set_graph g1 s)).
    { unfold update_graph, bind, attr, lift, modify, Graph.add_node, Graph.contains.
      rewrite Hg, Hnone. by rewrite bool_decide_eq_false_2 by (by intros [? ?]). }
    unfold bind at 1. rewrite Hstep1.
    assert (Hfresh' : forall squashes', Dict.keys squashes' = Dict.keys squashes
              \/ Dict.keys squashes' = Dict.keys squashes ++ [k] ->
              forall k', k' ∈ Dict.keys l ->
                nodes g1 !! k' = None /\ k' ∉ Dict.keys squashes').
    { intros squashes' Hkeys k' Hk'.
      destruct (Hfresh k') as [Hn Hs]; [rewrite dict_keys_cons; by right|].
      assert (k <> k') by (intros ->; done).
      split; [simpl; by rewrite lookup_insert_ne|].
      destruct Hkeys as [-> | ->]; [done|].
      rewrite elem_of_app, list_elem_of_singleton. naive_solver. }
    rewrite squashes_of_cons.
    case_bool_decide as Hrep.
    + destruct (decide (replaces m <> [])) as [_|?]; [|done].
      assert (Hstep2 : update_replacements (Dict.set k m) (set_graph g1 s)
                = (Ok tt, set_replacements (squashes ++ [(k, m)]) (set_graph g1 s))).
      { unfold update_replacements, bind, attr, modify. simpl. rewrite Hsq.
        rewrite (dict_set_absent squashes k m Hnsq). reflexivity. }
      rewrite Hstep2.
      rewrite (IH _ g1 (squashes ++ [(k, m)])); try done.
      * rewrite <- app_assoc. reflexivity.
      * apply Hfresh'. right. unfold Dict.keys. by rewrite fmap_app.
    + destruct (decide (replaces m <> [])) as [?|_]; [done|]. unfold ret.
      rewrite (IH _ g1 squashes); try done.
      apply Hfresh'. by left.
Qed.

(** The first loop of [build_graph]: a node for every disk migration, no
    edge, and the squash migrations noted in disk order. *)
Lemma add_nodes_run s disk :
  disk_migrations s = Some disk -> NoDup (Dict.keys disk) ->
  add_nodes s
  = (Ok tt, set_replacements (squashes_of disk)
              (set_graph (mkGraph (insert_nodes ∅ disk) []) s)).
Proof.
  intros Hdisk Hnd. unfold add_nodes, bind at 1, modify.
  unfold bind at 1. unfold bind at 1, attr. simpl. rewrite Hdisk.
  rewrite (add_nodes_loop disk _ Graph.empty Dict.empty); try done.
  intros k _. split; [apply lookup_empty | apply not_elem_of_nil].
Qed.
End phase_facts.

Section later_phase_facts.
Implicit Types (s : MigrationLoader) (g : MigrationGraph)
  (disk squashes : Dict.t key Migration).

Lemma for_each_edges_only {X} (xs : list X) (body : X -> M MigrationLoader unit) :
  (forall x s, edges_only s (body x s).2) ->
  forall s, edges_only s (for_each xs body s).2.
Proof.
  intros Hbody s.
  apply (for_each_keeps (edges_only s)); [|apply edges_only_refl].
  intros x s' _ Hs'. eapply edges_only_trans; [exact Hs' | apply Hbody].
Qed.

Lemma add_internal_dependencies_edges_only k migration s :
  edges_only s (add_internal_dependencies k migration s).2.
Proof.
  apply for_each_edges_only. intros. apply internal_dependency_edges_only.
Qed.

Lemma add_external_dependencies_edges_only k migration s :
  edges_only s (add_external_dependencies k migration s).2.
Proof.
  unfold add_external_dependencies, bind.
  pose proof (for_each_edges_only (dependencies migration)
    (external_dependency k migration)
    (fun x s => external_dependency_edges_only k migration x s) s) as H1.
  destruct (for_each (dependencies migration) _ s) as [[[]|e] s1]; simpl in *; [|done].
  eapply edges_only_trans; [exact H1|].
  apply for_each_edges_only. intros. apply run_before_dependency_edges_only.
Qed.

(** Wiring adds edges and nothing else, whether it succeeds or not. *)
Lemma add_dependencies_edges_only s : edges_only s (add_dependencies s).2.
Proof.
  unfold add_dependencies, bind at 1, attr.
  destruct (disk_migrations s) as [disk|] eqn:Hdisk; [|apply edges_only_refl].
  unfold bind at 1.
  pose proof (for_each_edges_only disk
    (fun '(k, migration) => add_internal_dependencies k migration)) as H1.
  specialize (H1 (fun x s => match x with (k, m) =>
                    add_internal_dependencies_edges_only k m s end) s).
  destruct (for_each disk _ s) as [[[]|e] s1]; simpl in *; [|done].
  eapply edges_only_trans; [exact H1|].
  unfold bind, attr. destruct (disk_migrations s1) as [disk1|]; [|apply edges_only_refl].
  apply (for_each_edges_only disk1
    (fun '(k, migration) => add_external_dependencies k migration)).
  intros [k m] s'. apply add_external_dependencies_edges_only.
Qed.

Lemma carry_out_replacement_run k migration s applied g :
  applied_migrations s = Some applied -> graph s = Some g ->
  carry_out_replacement k migration s
  = (Ok tt,
     set_graph (replacement_step (applied, g) (k, migration)).2
       (set_applied_migrations (replacement_step (applied, g) (k, migration)).1 s)).
Proof.
  intros Ha Hg.
  unfold carry_out_replacement, replacement_step, usable, all_applied, any_applied.
  unfold bind at 1, attr. rewrite Ha.
  destruct (forallb id _) eqn:Hall; simpl.
  - unfold bind, update_applied, update_graph, bind, attr, lift, modify.
    rewrite Ha. simpl. by rewrite Hg.
  - unfold bind, update_applied, update_graph, bind, attr, lift, modify.
    rewrite Ha. destruct (existsb id _); simpl; by rewrite Hg.
Qed.

Lemma carry_out_replacements_loop squashes s applied g :
  applied_migrations s = Some applied -> graph s = Some g ->
  for_each squashes (fun '(k, migration) => carry_out_replacement k migration) s
  = (Ok tt,
     set_graph (replacement_steps squashes (applied, g)).2
       (set_applied_migrations (replacement_steps squashes (applied, g)).1 s)).
Proof.
  revert s applied g.
  induction squashes as [|[k m] squashes IH]; intros s applied g Ha Hg.
  - simpl. unfold ret. destruct s; simpl in *. by subst.
  - cbn [for_each]. unfold bind.
    rewrite (carry_out_replacement_run _ _ _ _ _ Ha Hg).
    unfold replacement_steps. cbn [foldl].
    destruct (replacement_step (applied, g) (k, m)) as [applied1 g1] eqn:Hstep.
    cbn [fst snd].
    by rewrite (IH _ applied1 g1).
Qed.

(** "Carry out replacements" as a fold over the replacements. *)
Lemma carry_out_replacements_run s squashes applied g :
  replacements s = Some squashes ->
  applied_migrations s = Some applied -> graph s = Some g ->
  carry_out_replacements s
  = (Ok tt,
     if replace_migrations s then
       set_graph (replacement_steps squashes (applied, g)).2
         (set_applied_migrations (replacement_steps squashes (applied, g)).1 s)
     else s).
Proof.
  intros Hsq Ha Hg. unfold carry_out_replacements, bind at 1, gets.
  destruct (replace_migrations s); [|done].
  unfold bind, attr. rewrite Hsq.
  by apply carry_out_replacements_loop.
Qed.

Lemma diagnose_state exc s : (diagnose exc s).2 = s.
Proof.
  unfold diagnose, bind, attr, raise.
  repeat (case_match; simpl; try done; simplify_eq/=); reflexivity.
Qed.

Lemma ensure_consistent_state s : (ensure_consistent s).2 = s.
Proof.
  unfold ensure_consistent, try_except, bind, attr, lift.
  destruct (graph s) as [g|]; simpl.
  - destruct (Graph.validate_consistency g) as [[]|e]; simpl;
      [done | apply diagnose_state].
  - done.
Qed.

Lemma ensure_not_cyclic_state s : (ensure_not_cyclic s).2 = s.
Proof.
  unfold ensure_not_cyclic, bind, attr, lift.
  destruct (graph s) as [g|]; by simpl.
Qed.

(** Validation writes nothing: [build_graph] leaves the loader as the
    replacement phase left it. *)
Lemma build_graph_state apps s :
  state_after (build_graph apps) s = state_after (reconciled apps) s.
Proof.
  unfold state_after. rewrite build_graph_reconciled. unfold bind.
  destruct (reconciled apps s) as [[[]|e] s1]; [|done]. simpl.
  pose proof (ensure_consistent_state s1) as H1.
  destruct (ensure_consistent s1) as [[[]|e] s2]; simpl in *; subst; [|done].
  apply ensure_not_cyclic_state.
Qed.
End later_phase_facts.

Section config_facts.
Implicit Types (s : MigrationLoader).

Lemma update_graph_keeps_config f : keeps config (update_graph f).
Proof.
  intros s. unfold update_graph, bind, attr, lift, modify.
  destruct (graph s) as [g|]; [|done]. by destruct (f g).
Qed.


Lemma update_replacements_keeps_config f : keeps config (update_replacements f).
Proof.
  intros s. unfold update_replacements, bind, attr, modify.
  by destruct (replacements s).
Qed.

Lemma edges_only_config s s' : edges_only s s' -> config s' = config s.
Proof. intros []. unfold config. congruence. Qed.

Lemma wired_keeps_config apps : keeps config (wired apps).
Proof.
  unfold wired. apply keeps_bind.
  { intros s. pose proof (load_disk_keeps apps s) as H.
    unfold beyond_discovery, config in *. congruence. }
  intros _. apply keeps_bind.
  { intros s. by rewrite load_applied_run. }
  intros _. apply keeps_bind.
  { unfold add_nodes. apply keeps_bind; [done|]. intros _.
    apply keeps_bind; [done|]. intros _.
    apply keeps_bind; [apply keeps_attr|]. intros disk.
    apply keeps_for_each. intros [k m].
    apply keeps_bind; [apply update_graph_keeps_config|]. intros _.
    case_match; [apply update_replacements_keeps_config | apply keeps_ret]. }
  intros _ s. apply edges_only_config, add_dependencies_edges_only.
Qed.



(** What the loader holds when wiring has succeeded. *)
Lemma wired_ok apps s s1 :
  wired apps s = (Ok tt, s1) ->
  exists disk g0,
    disk_migrations s1 = Some disk
    /\ NoDup (Dict.keys disk)
    /\ applied_migrations s1 = Some (ledger_snapshot s)
    /\ graph s1 = Some g0
    /\ nodes g0 = insert_nodes ∅ disk
    /\ replacements s1 = Some (squashes_of disk)
    /\ same_config s1 s.
Proof.
  intros Hw.
  assert (Hcfg : same_config s1 s).
  { pose proof (wired_keeps_config apps s) as H. rewrite Hw in H.
    unfold config, same_config in *. simpl in H. by simplify_eq. }
  unfold wired in Hw.
  apply bind_inv_ok in Hw as ([] & t0 & Hload & Hw).
  apply bind_inv_ok in Hw as ([] & t1 & Happ & Hw).
  apply bind_inv_ok in Hw as ([] & t2 & Hnodes & Hw).
  destruct (load_disk_is_dict apps s) as [[disk Hdisk] Hnd].
  pose proof (load_disk_keeps apps s) as Hkeep.
  rewrite Hload in Hdisk, Hnd, Hkeep. simpl in Hdisk, Hnd, Hkeep.
  unfold disk_is_dict in Hnd. rewrite Hdisk in Hnd.
  rewrite load_applied_run in Happ. injection Happ as <-.
  rewrite (add_nodes_run _ disk) in Hnodes by done. injection Hnodes as <-.
  pose proof (add_dependencies_edges_only
    (set_replacements (squashes_of disk)
       (set_graph (mkGraph (insert_nodes ∅ disk) [])
          (set_applied_migrations (ledger_snapshot t0) t0)))) as Heo.
  rewrite Hw in Heo. simpl in Heo. destruct Heo as [_ _ _ Hd Ha _ _ Hr Hgr].
  simpl in *. inversion Hgr as [g1 g0 Hsame Heq1 Heq2|]; subst.
  exists disk, g0. split_and!; try done.
  - by rewrite Hd.
  - rewrite Ha. f_equal. unfold ledger_snapshot.
    unfold beyond_discovery in Hkeep. injection Hkeep as -> _ _ _ _ _. done.
Qed.
End config_facts.

(** ** Rebuilding *)

Section rebuild_claims.
Implicit Types (s : MigrationLoader).




End rebuild_claims.

Section rebuild_examples.
Import Sample.

End rebuild_examples.

(** ** Replacements *)

Section graph_rewrite_facts.
Implicit Types (g : MigrationGraph) (k x replacement : key) (replaced : list key).

Lemma contains_remove_replaced_nodes replacement replaced g x :
  Graph.contains x (Graph.remove_replaced_nodes replacement replaced g)
  = if decide (x ∈ replaced) then false else Graph.contains x g.
Proof.
  unfold Graph.contains, Graph.remove_replaced_nodes. simpl. case_decide.
  - rewrite lookup_foldr_delete by done.
    apply bool_decide_eq_false. by intros [? ?].
  - by rewrite lookup_foldr_delete_not_elem_of.
Qed.

Lemma contains_remove_replacement_node replacement replaced g x :
  Graph.contains x (Graph.remove_replacement_node replacement replaced g)
  = if decide (x = replacement) then false else Graph.contains x g.
Proof.
  unfold Graph.contains, Graph.remove_replacement_node. simpl. case_decide.
  - subst. rewrite lookup_delete_eq. apply bool_decide_eq_false. by intros [? ?].
  - by rewrite lookup_delete_ne.
Qed.

Lemma repoint_eq replacement replaced k x :
  Graph.repoint replacement replaced k = x ->
  (k ∈ replaced /\ x = replacement) \/ ((k ∉ replaced) /\ x = k).
Proof. unfold Graph.repoint. case_decide; naive_solver. Qed.

Lemma elem_of_spread replacement replaced k x :
  x ∈ Graph.spread replacement replaced k ->
  (k = replacement /\ x ∈ replaced) \/ (k <> replacement /\ x = k).
Proof.
  unfold Graph.spread. case_decide; [naive_solver|].
  intros ->%list_elem_of_singleton. naive_solver.
Qed.

Lemma elem_of_edges_remove_replaced_nodes replacement replaced g e' :
  e' ∈ edges (Graph.remove_replaced_nodes replacement replaced g) <->
  exists e, e ∈ edges g
    /\ e' = mkEdge (Graph.repoint replacement replaced (e_parent e))
                   (Graph.repoint replacement replaced (e_child e)) (e_origin e).
Proof.
  unfold Graph.remove_replaced_nodes. simpl. rewrite list_elem_of_fmap. naive_solver.
Qed.

Lemma elem_of_edges_remove_replacement_node replacement replaced g e' :
  e' ∈ edges (Graph.remove_replacement_node replacement replaced g) <->
  exists e, e ∈ edges g
    /\ e_parent e' ∈ Graph.spread replacement replaced (e_parent e)
    /\ e_child e' ∈ Graph.spread replacement replaced (e_child e)
    /\ e_origin e' = e_origin e.
Proof.
  unfold Graph.remove_replacement_node. simpl. rewrite list_elem_of_bind. split.
  - intros (e & He' & He). exists e. split; [done|].
    apply list_elem_of_bind in He' as (p & He' & Hp).
    apply list_elem_of_bind in He' as (c & He' & Hc).
    apply list_elem_of_singleton in He'. by subst.
  - intros (e & He & Hp & Hc & Ho). exists e. split; [|done].
    apply list_elem_of_bind. exists (e_parent e'). split; [|done].
    apply list_elem_of_bind. exists (e_child e'). split; [|done].
    apply list_elem_of_singleton. destruct e'. simpl in *. by subst.
Qed.
End graph_rewrite_facts.

Section replacement_step_facts.
Implicit Types (view : Dict.t key applied_value * MigrationGraph)
  (squashes : Dict.t key Migration) (k x : key) (m : Migration) (e : Edge).

Lemma step_mem view k m x :
  x <> k -> Dict.mem x (replacement_step view (k, m)).1 = Dict.mem x view.1.
Proof.
  intros Hne. destruct view as [applied g]. unfold replacement_step, Dict.mem. simpl.
  destruct (all_applied applied m).
  - by rewrite dict_get_set_ne.
  - by rewrite dict_get_pop_ne.
Qed.

Lemma step_contains view k m x :
  x <> k -> x ∉ replaces m ->
  Graph.contains x (replacement_step view (k, m)).2 = Graph.contains x view.2.
Proof.
  intros Hne Hnin. destruct view as [applied g]. unfold replacement_step. simpl.
  destruct (usable applied m).
  - rewrite contains_remove_replaced_nodes. by rewrite decide_False.
  - rewrite contains_remove_replacement_node. by rewrite decide_False.
Qed.

Lemma step_no_touch view k m x :
  x <> k -> x ∉ replaces m ->
  (forall e, e ∈ edges view.2 -> ~ touches x e) ->
  forall e', e' ∈ edges (replacement_step view (k, m)).2 -> ~ touches x e'.
Proof.
  intros Hne Hnin Hfree e'. destruct view as [applied g].
  unfold replacement_step. simpl in *. destruct (usable applied m).
  - intros (e & He & ->)%elem_of_edges_remove_replaced_nodes [Hp|Hc]; simpl in *.
    + apply repoint_eq in Hp as [[_ ?]|[_ Hp]]; [done|].
      apply (Hfree e He). by left.
    + apply repoint_eq in Hc as [[_ ?]|[_ Hc]]; [done|].
      apply (Hfree e He). by right.
  - intros (e & He & Hp & Hc & _)%elem_of_edges_remove_replacement_node [Ht|Ht].
    + rewrite Ht in Hp. apply elem_of_spread in Hp as [[_ ?]|[_ Hp]]; [done|].
      apply (Hfree e He). by left.
    + rewrite Ht in Hc. apply elem_of_spread in Hc as [[_ ?]|[_ Hc]]; [done|].
      apply (Hfree e He). by right.
Qed.

Lemma spread_pick k replaced x :
  replaced <> [] ->
  exists y, y ∈ Graph.spread k replaced x /\ (x <> k -> y = x).
Proof.
  intros Hne. unfold Graph.spread. case_decide as Hx.
  - destruct replaced as [|y replaced]; [done|]. exists y. split; [by left | done].
  - exists x. split; [by apply list_elem_of_singleton | done].
Qed.

Lemma step_track view k m e :
  replaces m <> [] -> e ∈ edges view.2 ->
  exists e', e' ∈ edges (replacement_step view (k, m)).2
    /\ e_origin e' = e_origin e
    /\ (e_parent e <> k -> e_parent e ∉ replaces m -> e_parent e' = e_parent e)
    /\ (e_child e <> k -> e_child e ∉ replaces m -> e_child e' = e_child e).
Proof.
  intros Hrep He. destruct view as [applied g].
  unfold replacement_step. simpl in *. destruct (usable applied m).
  - eexists. split; [apply elem_of_edges_remove_replaced_nodes; by exists e|].
    simpl. unfold Graph.repoint. split_and!; [done | |]; intros _ Hnin;
      by rewrite decide_False.
  - destruct (spread_pick k (replaces m) (e_parent e) Hrep) as (p & Hp & Hp').
    destruct (spread_pick k (replaces m) (e_child e) Hrep) as (c & Hc & Hc').
    exists (mkEdge p c (e_origin e)).
    split; [apply elem_of_edges_remove_replacement_node; by exists e|].
    simpl. split_and!; [done | |]; intros Hne _; auto.
Qed.

Lemma apart_cons squashes k m x :
  apart ((k, m) :: squashes) x <-> (x <> k /\ x ∉ replaces m) /\ apart squashes x.
Proof. unfold apart. by rewrite Forall_cons. Qed.

Lemma steps_cons squashes k m view :
  replacement_steps ((k, m) :: squashes) view
  = replacement_steps squashes (replacement_step view (k, m)).
Proof. reflexivity. Qed.

Lemma steps_mem squashes view x :
  x ∉ Dict.keys squashes ->
  Dict.mem x (replacement_steps squashes view).1 = Dict.mem x view.1.
Proof.
  revert view. induction squashes as [|[k m] squashes IH]; intros view Hx; [done|].
  rewrite dict_keys_cons in Hx. apply not_elem_of_cons in Hx as [Hne Hx].
  rewrite steps_cons, IH by done. by apply step_mem.
Qed.

Lemma steps_contains squashes view x :
  apart squashes x ->
  Graph.contains x (replacement_steps squashes view).2 = Graph.contains x view.2.
Proof.
  revert view. induction squashes as [|[k m] squashes IH]; intros view Hx; [done|].
  apply apart_cons in Hx as [[Hne Hnin] Hx].
  rewrite steps_cons, IH by done. by apply step_contains.
Qed.

Lemma steps_no_touch squashes view x :
  apart squashes x ->
  (forall e, e ∈ edges view.2 -> ~ touches x e) ->
  forall e', e' ∈ edges (replacement_steps squashes view).2 -> ~ touches x e'.
Proof.
  revert view. induction squashes as [|[k m] squashes IH]; intros view Hx Hfree; [done|].
  apply apart_cons in Hx as [[Hne Hnin] Hx].
  rewrite steps_cons. apply IH; [done|]. by apply step_no_touch.
Qed.

Lemma steps_track squashes view e :
  Forall (fun km => replaces km.2 <> []) squashes ->
  e ∈ edges view.2 ->
  exists e', e' ∈ edges (replacement_steps squashes view).2
    /\ e_origin e' = e_origin e
    /\ (apart squashes (e_parent e) -> e_parent e' = e_parent e)
    /\ (apart squashes (e_child e) -> e_child e' = e_child e).
Proof.
  revert view e. induction squashes as [|[k m] squashes IH]; intros view e Hrep He.
  - exists e. by split_and!.
  - apply Forall_cons in Hrep as [Hm Hrep]. simpl in Hm.
    destruct (step_track view k m e Hm He) as (e1 & He1 & Ho1 & Hp1 & Hc1).
    destruct (IH _ e1 Hrep He1) as (e' & He' & Ho' & Hp' & Hc').
    exists e'. rewrite steps_cons. split_and!; [done | congruence | |].
    + intros [[Hne Hnin] Hx]%apart_cons. rewrite <- (Hp1 Hne Hnin) in *. auto.
    + intros [[Hne Hnin] Hx]%apart_cons. rewrite <- (Hc1 Hne Hnin) in *. auto.
Qed.
End replacement_step_facts.

Section own_step_facts.
Implicit Types (g : MigrationGraph) (R x : key) (replaced : list key) (e : Edge).

Lemma substitute_no_touch R replaced g x e' :
  R ∉ replaced -> x ∈ replaced ->
  e' ∈ edges (Graph.remove_replaced_nodes R replaced g) -> ~ touches x e'.
Proof.
  intros HR Hx (e & He & ->)%elem_of_edges_remove_replaced_nodes [Hp|Hc]; simpl in *.
  - apply repoint_eq in Hp as [[_ ->]|[? ->]]; done.
  - apply repoint_eq in Hc as [[_ ->]|[? ->]]; done.
Qed.

Lemma substitute_track R replaced g e :
  e ∈ edges g ->
  exists e', e' ∈ edges (Graph.remove_replaced_nodes R replaced g)
    /\ e_origin e' = e_origin e
    /\ (e_parent e ∈ replaced -> e_parent e' = R)
    /\ (e_child e ∈ replaced -> e_child e' = R)
    /\ (e_parent e ∉ replaced -> e_parent e' = e_parent e)
    /\ (e_child e ∉ replaced -> e_child e' = e_child e).
Proof.
  intros He. eexists. split; [apply elem_of_edges_remove_replaced_nodes; by exists e|].
  simpl. unfold Graph.repoint.
  split_and!; [done | intros H; by rewrite decide_True ..
              | intros H; by rewrite decide_False | intros H; by rewrite decide_False].
Qed.

Lemma partial_no_touch R replaced g e' :
  R ∉ replaced ->
  e' ∈ edges (Graph.remove_replacement_node R replaced g) -> ~ touches R e'.
Proof.
  intros HR (e & He & Hp & Hc & _)%elem_of_edges_remove_replacement_node [Ht|Ht].
  - rewrite Ht in Hp. apply elem_of_spread in Hp as [[_ ?]|[? ?]]; done.
  - rewrite Ht in Hc. apply elem_of_spread in Hc as [[_ ?]|[? ?]]; done.
Qed.

Lemma partial_track R replaced g e x :
  x ∈ replaced -> e ∈ edges g ->
  exists e', e' ∈ edges (Graph.remove_replacement_node R replaced g)
    /\ e_origin e' = e_origin e
    /\ (e_parent e = R -> e_parent e' = x)
    /\ (e_child e = R -> e_child e' = x)
    /\ (e_parent e <> R -> e_parent e' = e_parent e)
    /\ (e_child e <> R -> e_child e' = e_child e).
Proof.
  intros Hx He.
  exists (mkEdge (if decide (e_parent e = R) then x else e_parent e)
                 (if decide (e_child e = R) then x else e_child e) (e_origin e)).
  split.
  - apply elem_of_edges_remove_replacement_node. exists e. simpl.
    unfold Graph.spread. split_and!; [done | | | done];
      case_decide; by (done || apply list_elem_of_singleton).
  - simpl.
    split_and!; [done | intros H; by rewrite decide_True ..
                | intros H; by rewrite decide_False | intros H; by rewrite decide_False].
Qed.

Lemma usable_pair {V} (applied : Dict.t key V) m a b :
  replaces m = [a; b] ->
  all_applied applied m = Dict.mem a applied && Dict.mem b applied
  /\ (usable applied m = true <-> Dict.mem a applied = Dict.mem b applied).
Proof.
  intros Hm. unfold usable, all_applied, any_applied. rewrite Hm. simpl.
  destruct (Dict.mem a applied), (Dict.mem b applied); simpl; naive_solver.
Qed.

Lemma keys_squashes_of disk k :
  k ∈ Dict.keys (squashes_of disk) -> k ∈ Dict.keys disk.
Proof.
  unfold Dict.keys. rewrite !list_elem_of_fmap.
  intros ([k' m] & -> & Hin). exists (k', m). split; [done|].
  by apply elem_of_squashes_of in Hin as [? _].
Qed.

Lemma NoDup_keys_squashes_of disk :
  NoDup (Dict.keys disk) -> NoDup (Dict.keys (squashes_of disk)).
Proof.
  induction disk as [|[k m] disk IH]; [done|].
  rewrite dict_keys_cons, squashes_of_cons. intros [Hk Hnd]%NoDup_cons.
  case_decide; [|by apply IH]. rewrite dict_keys_cons. apply NoDup_cons.
  split; [|by apply IH]. intros Hin. by apply Hk, keys_squashes_of.
Qed.

Lemma squashes_of_nonempty disk :
  Forall (fun km => replaces km.2 <> []) (squashes_of disk).
Proof.
  apply Forall_forall. intros [k m] Hin.
  by apply elem_of_squashes_of in Hin as [_ ?].
Qed.
End own_step_facts.

Section replacement_outcome.
Implicit Types (g : MigrationGraph) (R a b x : key) (m : Migration)
  (squashes L : Dict.t key Migration) (applied : Dict.t key applied_value).

Lemma apart_app L1 L2 x : apart (L1 ++ L2) x <-> apart L1 x /\ apart L2 x.
Proof. unfold apart. apply Forall_app. Qed.

Lemma apart_not_key squashes x : apart squashes x -> x ∉ Dict.keys squashes.
Proof.
  unfold apart, Dict.keys. rewrite Forall_forall, list_elem_of_fmap.
  intros H (km & -> & Hin). by destruct (H km Hin).
Qed.

Lemma undisturbed_apart L1 L2 R m x :
  undisturbed (L1 ++ (R, m) :: L2) R x ->
  R ∉ Dict.keys L1 -> R ∉ Dict.keys L2 ->
  apart L1 x /\ apart L2 x.
Proof.
  unfold undisturbed, apart, Dict.keys.
  rewrite Forall_app, Forall_cons, !Forall_forall.
  intros (H1 & _ & H2) HR1 HR2. split; intros km Hin.
  - destruct (H1 km Hin) as [Heq|?]; [|done]. exfalso. apply HR1.
    apply list_elem_of_fmap. by exists km.
  - destruct (H2 km Hin) as [Heq|?]; [|done]. exfalso. apply HR2.
    apply list_elem_of_fmap. by exists km.
Qed.

(** The squash migration [R], with [replaces = [a; b]], among other squash
    migrations that concern neither [R] nor [a] nor [b]: what is left of
    the three keys and of the edges at them when all replacements have
    been carried out. *)
Lemma replacement_outcome L1 L2 R m a b applied g :
  replaces m = [a; b] -> R <> a -> R <> b ->
  Forall (fun km => replaces km.2 <> []) (L1 ++ (R, m) :: L2) ->
  apart L1 R -> apart L1 a -> apart L1 b ->
  apart L2 R -> apart L2 a -> apart L2 b ->
  let squashes := L1 ++ (R, m) :: L2 in
  let final := (replacement_steps squashes (applied, g)).2 in
  (Dict.mem a applied = Dict.mem b applied ->
     Graph.contains R final = Graph.contains R g
     /\ Graph.contains a final = false
     /\ Graph.contains b final = false
     /\ (forall e', e' ∈ edges final -> ~ touches a e' /\ ~ touches b e')
     /\ (forall e, e ∈ edges g ->
           exists e', e' ∈ edges final /\ stands_for squashes [a; b] R e e'))
  /\ (Dict.mem a applied <> Dict.mem b applied ->
     Graph.contains R final = false
     /\ Graph.contains a final = Graph.contains a g
     /\ Graph.contains b final = Graph.contains b g
     /\ (forall e', e' ∈ edges final -> ~ touches R e')
     /\ (forall e x, e ∈ edges g -> x ∈ [a; b] ->
           exists e', e' ∈ edges final /\ stands_for squashes [R] x e e')).
Proof.
  intros Hm HRa HRb Hrep H1R H1a H1b H2R H2a H2b squashes final.
  apply Forall_app in Hrep as [Hrep1 Hrep2].
  apply Forall_cons in Hrep2 as [_ Hrep2].
  assert (HRin : R ∉ [a; b]).
  { intros [?|[?|?%elem_of_nil]%elem_of_cons]%elem_of_cons; done. }
  assert (Hin_ab : forall x, x ∈ [a; b] -> apart L1 x /\ apart L2 x /\ x <> R).
  { intros x [->|[->|?%elem_of_nil]%elem_of_cons]%elem_of_cons; done. }
  unfold final, squashes, replacement_steps. rewrite foldl_app. cbn [foldl].
  fold (replacement_steps L1 (applied, g)).
  destruct (replacement_steps L1 (applied, g)) as [applied1 g1] eqn:E1.
  assert (Hc1 : forall x, apart L1 x -> Graph.contains x g1 = Graph.contains x g).
  { intros x Hx. pose proof (steps_contains L1 (applied, g) x Hx) as H.
    by rewrite E1 in H. }
  assert (Hmem1 : forall x, apart L1 x -> Dict.mem x applied1 = Dict.mem x applied).
  { intros x Hx%apart_not_key. pose proof (steps_mem L1 (applied, g) x Hx) as H.
    by rewrite E1 in H. }
  assert (Ht1 : forall e, e ∈ edges g -> exists e1, e1 ∈ edges g1
            /\ e_origin e1 = e_origin e
            /\ (apart L1 (e_parent e) -> e_parent e1 = e_parent e)
            /\ (apart L1 (e_child e) -> e_child e1 = e_child e)).
  { intros e He. pose proof (steps_track L1 (applied, g) e Hrep1 He) as H.
    by rewrite E1 in H. }
  destruct (usable_pair applied1 m a b Hm) as [_ Huse].
  rewrite (Hmem1 a H1a), (Hmem1 b H1b) in Huse.
  fold (replacement_steps L2 (replacement_step (applied1, g1) (R, m))).
  set (applied2 := if all_applied applied1 m
                   then Dict.set R (Replacing m) applied1 else Dict.pop R applied1).
  assert (Hstep : replacement_step (applied1, g1) (R, m)
            = (applied2, if usable applied1 m
                         then Graph.remove_replaced_nodes R [a; b] g1
                         else Graph.remove_replacement_node R [a; b] g1)).
  { unfold replacement_step. by rewrite Hm. }
  rewrite Hstep. clear Hstep.
  split; intros Hmode.
  - apply Huse in Hmode. rewrite Hmode.
    set (g2 := Graph.remove_replaced_nodes R [a; b] g1).
    split_and!.
    + rewrite (steps_contains L2 (applied2, g2) R H2R). simpl. unfold g2.
      rewrite contains_remove_replaced_nodes, decide_False by done. by apply Hc1.
    + rewrite (steps_contains L2 (applied2, g2) a H2a). simpl. unfold g2.
      rewrite contains_remove_replaced_nodes, decide_True; [done | by left].
    + rewrite (steps_contains L2 (applied2, g2) b H2b). simpl. unfold g2.
      rewrite contains_remove_replaced_nodes, decide_True; [done | by right; left].
    + intros e' He'. split.
      * apply (steps_no_touch L2 (applied2, g2) a H2a); [|done].
        intros e0. apply substitute_no_touch; [done | by left].
      * apply (steps_no_touch L2 (applied2, g2) b H2b); [|done].
        intros e0. apply substitute_no_touch; [done | by right; left].
    + intros e He. destruct (Ht1 e He) as (e1 & He1 & Ho1 & Hp1 & Hc1').
      destruct (substitute_track R [a; b] g1 e1 He1)
        as (e2 & He2 & Ho2 & Hp2 & Hc2 & Hp2' & Hc2').
      destruct (steps_track L2 (applied2, g2) e2 Hrep2 He2)
        as (e' & He' & Ho' & Hp' & Hc').
      exists e'. split; [done|]. unfold stands_for. split_and!.
      * congruence.
      * intros Hin. destruct (Hin_ab _ Hin) as (Hx1 & _ & _).
        assert (Ep1 := Hp1 Hx1).
        assert (Ep2 : e_parent e2 = R) by (apply Hp2; by rewrite Ep1).
        rewrite Hp'; [done | by rewrite Ep2].
      * intros Hin. destruct (Hin_ab _ Hin) as (Hx1 & _ & _).
        assert (Ec1 := Hc1' Hx1).
        assert (Ec2 : e_child e2 = R) by (apply Hc2; by rewrite Ec1).
        rewrite Hc'; [done | by rewrite Ec2].
      * intros (Hx1 & [[_ Hx] Hx2]%apart_cons)%apart_app. simpl in Hx. rewrite Hm in Hx.
        assert (Ep1 := Hp1 Hx1).
        assert (Ep2 : e_parent e2 = e_parent e1) by (apply Hp2'; by rewrite Ep1).
        rewrite Hp'; [congruence | by rewrite Ep2, Ep1].
      * intros (Hx1 & [[_ Hx] Hx2]%apart_cons)%apart_app. simpl in Hx. rewrite Hm in Hx.
        assert (Ec1 := Hc1' Hx1).
        assert (Ec2 : e_child e2 = e_child e1) by (apply Hc2'; by rewrite Ec1).
        rewrite Hc'; [congruence | by rewrite Ec2, Ec1].
  - assert (Huse' : usable applied1 m = false).
    { destruct (usable applied1 m); [|done]. exfalso. by apply Hmode, Huse. }
    rewrite Huse'.
    set (g2 := Graph.remove_replacement_node R [a; b] g1).
    split_and!.
    + rewrite (steps_contains L2 (applied2, g2) R H2R). simpl. unfold g2.
      by rewrite contains_remove_replacement_node, decide_True.
    + rewrite (steps_contains L2 (applied2, g2) a H2a). simpl. unfold g2.
      rewrite contains_remove_replacement_node, decide_False by done. by apply Hc1.
    + rewrite (steps_contains L2 (applied2, g2) b H2b). simpl. unfold g2.
      rewrite contains_remove_replacement_node, decide_False by done. by apply Hc1.
    + intros e' He'.
      apply (steps_no_touch L2 (applied2, g2) R H2R); [|done].
      intros e0. by apply partial_no_touch.
    + intros e x He Hx. destruct (Ht1 e He) as (e1 & He1 & Ho1 & Hp1 & Hc1').
      destruct (Hin_ab x Hx) as (_ & Hx2 & HxR).
      destruct (partial_track R [a; b] g1 e1 x Hx He1)
        as (e2 & He2 & Ho2 & Hp2 & Hc2 & Hp2' & Hc2').
      destruct (steps_track L2 (applied2, g2) e2 Hrep2 He2)
        as (e' & He' & Ho' & Hp' & Hc').
      exists e'. split; [done|]. unfold stands_for. split_and!.
      * congruence.
      * intros HeR%list_elem_of_singleton.
        assert (Ep1 : e_parent e1 = R) by (rewrite <- HeR; apply Hp1; by rewrite HeR).
        assert (Ep2 := Hp2 Ep1).
        rewrite Hp'; [done | by rewrite Ep2].
      * intros HeR%list_elem_of_singleton.
        assert (Ec1 : e_child e1 = R) by (rewrite <- HeR; apply Hc1'; by rewrite HeR).
        assert (Ec2 := Hc2 Ec1).
        rewrite Hc'; [done | by rewrite Ec2].
      * intros (Hx1 & [[HneR _] Hxx]%apart_cons)%apart_app. simpl in HneR.
        assert (Ep1 := Hp1 Hx1).
        assert (Ep2 : e_parent e2 = e_parent e1) by (apply Hp2'; by rewrite Ep1).
        rewrite Hp'; [congruence | by rewrite Ep2, Ep1].
      * intros (Hx1 & [[HneR _] Hxx]%apart_cons)%apart_app. simpl in HneR.
        assert (Ec1 := Hc1' Hx1).
        assert (Ec2 : e_child e2 = e_child e1) by (apply Hc2'; by rewrite Ec1).
        rewrite Hc'; [congruence | by rewrite Ec2, Ec1].
Qed.
End replacement_outcome.

(** ** Cycle detection *)

Section cycle_facts.
Implicit Types (g : MigrationGraph) (k x : key) (path l : list key).









End cycle_facts.

(** ** All or nothing *)

Section outcome_claims.
Implicit Types (s : MigrationLoader) (g : MigrationGraph).






Lemma reconciled_run apps s s1 :
  wired apps s = (Ok tt, s1) ->
  exists disk g0,
    graph s1 = Some g0 /\ replacements s1 = Some (squashes_of disk)
    /\ disk_migrations s1 = Some disk
    /\ reconciled apps s
       = (Ok tt,
          if replace_migrations s then
            set_graph (replacement_steps (squashes_of disk) (ledger_snapshot s, g0)).2
              (set_applied_migrations
                 (replacement_steps (squashes_of disk) (ledger_snapshot s, g0)).1 s1)
          else s1).
Proof.
  intros Hw.
  destruct (wired_ok apps s s1 Hw) as (disk & g0 & Hd & Hnd & Ha & Hg & Hn & Hr & Hcfg).
  exists disk, g0. split_and!; try done.
  rewrite reconciled_wired, (bind_ok _ _ _ _ _ Hw).
  rewrite (carry_out_replacements_run _ _ _ _ Hr Ha Hg).
  destruct Hcfg as (_ & _ & ->). done.
Qed.


End outcome_claims.

Section outcome_examples.
Import Sample.


End outcome_examples.

(** ** Squash substitution *)

Section substitution_claims.
Implicit Types (s : MigrationLoader) (g : MigrationGraph) (R a b : key)
  (m : Migration) (disk : Dict.t key Migration).

Lemma contains_disk_nodes disk g k :
  nodes g = insert_nodes ∅ disk ->
  Graph.contains k g = true <-> k ∈ Dict.keys disk.
Proof.
  intros Hn. unfold Graph.contains. rewrite bool_decide_eq_true, Hn.
  rewrite lookup_insert_nodes, lookup_empty. split; [|by left].
  intros [?|[? ?]]; done.
Qed.

Lemma split_squashes squashes R m :
  NoDup (Dict.keys squashes) -> (R, m) ∈ squashes ->
  exists L1 L2, squashes = L1 ++ (R, m) :: L2
                /\ (R ∉ Dict.keys L1) /\ (R ∉ Dict.keys L2).
Proof.
  intros Hnd (L1 & L2 & ->)%list_elem_of_split. exists L1, L2. split; [done|].
  unfold Dict.keys in *. rewrite fmap_app, fmap_cons in Hnd. simpl in Hnd.
  apply NoDup_app in Hnd as (_ & Hdisj & Hnd2).
  apply NoDup_cons in Hnd2 as [Hnin _]. split; [|done].
  intros Hin. apply (Hdisj R Hin). by left.
Qed.

(** C1 (amended).  Let [build_graph], with replacement handling enabled,
    pass its wiring phase, and let [R] be a squash migration on disk with
    [replaces = [a; b]], different from [a] and [b], such that no other
    squash migration on disk is [R], [a] or [b] or names one of them in
    its [replaces].  The graph the loader then holds is as follows.

    If [a] and [b] are both in the ledger, or neither is: it contains [R]
    and neither [a] nor [b], no edge has [a] or [b] at an end, and every
    edge of the wired graph is stood for by an edge in which an end at [a]
    or [b] has become [R].

    If exactly one of them is in the ledger: it does not contain [R], it
    contains [a] (respectively [b]) if and only if that migration is on
    disk, no edge has [R] at an end, and every edge of the wired graph is
    stood for, for [a] and for [b], by an edge in which an end at [R] has
    become that key. *)
Theorem squash_substitution apps s s1 disk g0 R m a b :
  wired apps s = (Ok tt, s1) ->
  replace_migrations s = true ->
  disk_migrations s1 = Some disk ->
  graph s1 = Some g0 ->
  (R, m) ∈ disk ->
  replaces m = [a; b] ->
  R <> a -> R <> b ->
  undisturbed (squashes_of disk) R R ->
  undisturbed (squashes_of disk) R a ->
  undisturbed (squashes_of disk) R b ->
  exists final,
    graph (state_after (build_graph apps) s) = Some final
    /\ (Dict.mem a (ledger_snapshot s) = Dict.mem b (ledger_snapshot s) ->
          Graph.contains R final = true
          /\ Graph.contains a final = false
          /\ Graph.contains b final = false
          /\ (forall e', e' ∈ edges final -> ~ touches a e' /\ ~ touches b e')
          /\ (forall e, e ∈ edges g0 ->
                exists e', e' ∈ edges final
                           /\ stands_for (squashes_of disk) [a; b] R e e'))
    /\ (Dict.mem a (ledger_snapshot s) <> Dict.mem b (ledger_snapshot s) ->
          Graph.contains R final = false
          /\ (Graph.contains a final = true <-> a ∈ Dict.keys disk)
          /\ (Graph.contains b final = true <-> b ∈ Dict.keys disk)
          /\ (forall e', e' ∈ edges final -> ~ touches R e')
          /\ (forall e x, e ∈ edges g0 -> x ∈ [a; b] ->
                exists e', e' ∈ edges final
                           /\ stands_for (squashes_of disk) [R] x e e')).
Proof.
  intros Hw Hflag Hdisk Hg0 HR Hm HRa HRb HuR Hua Hub.
  destruct (wired_ok apps s s1 Hw)
    as (disk' & g0' & Hd & Hnd & Ha & Hg & Hn & Hr & Hcfg).
  rewrite Hdisk in Hd. injection Hd as <-.
  rewrite Hg0 in Hg. injection Hg as <-.
  assert (HRsq : (R, m) ∈ squashes_of disk).
  { apply elem_of_squashes_of. split; [done|]. by rewrite Hm. }
  destruct (split_squashes (squashes_of disk) R m
              (NoDup_keys_squashes_of disk Hnd) HRsq)
    as (L1 & L2 & Hsplit & HR1 & HR2).
  rewrite Hsplit in HuR, Hua, Hub.
  destruct (undisturbed_apart L1 L2 R m R HuR HR1 HR2) as [H1R H2R].
  destruct (undisturbed_apart L1 L2 R m a Hua HR1 HR2) as [H1a H2a].
  destruct (undisturbed_apart L1 L2 R m b Hub HR1 HR2) as [H1b H2b].
  pose proof (squashes_of_nonempty disk) as Hne. rewrite Hsplit in Hne.
  destruct (replacement_outcome L1 L2 R m a b (ledger_snapshot s) g0
              Hm HRa HRb Hne H1R H1a H1b H2R H2a H2b) as [Hsame Hdiff].
  rewrite <- Hsplit in Hsame, Hdiff.
  exists (replacement_steps (squashes_of disk) (ledger_snapshot s, g0)).2.
  split.
  { rewrite build_graph_state. unfold state_after.
    destruct (reconciled_run apps s s1 Hw) as (disk' & g0' & Hg' & _ & Hd' & ->).
    rewrite Hdisk in Hd'. injection Hd' as <-.
    rewrite Hg0 in Hg'. injection Hg' as <-.
    by rewrite Hflag. }
  split.
  - intros Hmode. destruct (Hsame Hmode) as (HcR & Hca & Hcb & Hfree & Htrack).
    split_and!; try done.
    rewrite HcR. apply (contains_disk_nodes disk g0 R Hn).
    unfold Dict.keys. apply list_elem_of_fmap. by exists (R, m).
  - intros Hmode. destruct (Hdiff Hmode) as (HcR & Hca & Hcb & Hfree & Htrack).
    split_and!; try done.
    + rewrite Hca. by apply contains_disk_nodes.
    + rewrite Hcb. by apply contains_disk_nodes.
Qed.
End substitution_claims.

Section substitution_examples.
Import Sample.

Lemma squash_substitution_witness :
  let s := loader [] in
  let s1 := state_after (wired plain_squash) s in
  let R := ("X", "R") in
  let m := mkMigration "R" "X" [] [] [("X", "a"); ("X", "b")] in
  wired plain_squash s = (Ok tt, s1)
  /\ (R, m) ∈ default Dict.empty (disk_migrations s1)
  /\ undisturbed (squashes_of (default Dict.empty (disk_migrations s1))) R ("X", "a")
  /\ exists final,
       graph (state_after (build_graph plain_squash) s) = Some final
       /\ Graph.contains R final = true
       /\ Graph.contains ("X", "a") final = false
       /\ Graph.contains ("X", "b") final = false.
Proof.
  intros s s1 R m.
  assert (Hw : wired plain_squash s = (Ok tt, s1)) by (by vm_compute).
  assert (HR : (R, m) ∈ default Dict.empty (disk_migrations s1)).
  { apply (bool_decide_unpack _). by vm_compute. }
  assert (Hu : forall x, x ∈ [R; ("X", "a"); ("X", "b")] ->
            undisturbed (squashes_of (default Dict.empty (disk_migrations s1))) R x).
  { intros x _. apply Forall_cons. split; [by left | apply Forall_nil_2]. }
  split; [exact Hw|]. split; [exact HR|].
  split; [apply Hu; by right; left|].
  destruct (squash_substitution plain_squash s s1
              (default Dict.empty (disk_migrations s1))
              (default Graph.empty (graph s1)) R m ("X", "a") ("X", "b") Hw)
    as (final & Hfinal & Hsame & _); try done.
  - apply Hu. by left.
  - apply Hu. by right; left.
  - apply Hu. by right; right; left.
  - exists final. split; [exact Hfinal|].
    destruct (Hsame eq_refl) as (HcR & Hca & Hcb & _). by split_and!.
Defined.

(** C1 (as stated): with exactly one of [a], [b] in the ledger the built
    graph would contain [a] and [b].  Here [R] squashes [a] and [b], [a]
    is applied and [b], which is not applied, is no longer on disk: the
    build succeeds, and the graph holds [a] alone. *)
Lemma partially_applied_squash_with_deleted_target :
  let s := loader [("X", "a")] in
  let s' := state_after (build_graph half_deleted) s in
  outcome (build_graph half_deleted) s = Ok tt
  /\ Dict.mem ("X", "a") (ledger_snapshot s) = true
  /\ Dict.mem ("X", "b") (ledger_snapshot s) = false
  /\ exists g, graph s' = Some g
               /\ Graph.contains ("X", "a") g = true
               /\ Graph.contains ("X", "b") g = false
               /\ Graph.contains ("X", "R") g = false.
Proof.
  intros s s'. split; [by vm_compute|]. split; [by vm_compute|].
  split; [by vm_compute|]. eexists. split; [by vm_compute|]. by vm_compute.
Qed.
End substitution_examples.
